(** * Triangle motion graphic: geometry editing and keyframe sequencing

    Shallow embedding of [triangle_mg.py], a Blender script that builds a
    camera, turns a three-sided cone into a triangle, duplicates it and
    keyframes the duplicate's rotation and scale.

    The script consists of calls into the host application ([bpy],
    [bmesh]).  The host's scene state is modelled as a record [World]; each
    host call is a function in the [Host] monad (state plus Python
    exceptions).  The script's own functions ([degToRadian], [move_obj],
    [rotate_obj], [scale_obj], [add_keyframe_sequence], ...) are translated
    line by line over these host calls.

    Python floats are read as real numbers; rounding is not modelled. *)

From Stdlib Require Import Reals Lra ZArith.
From stdpp Require Import gmap strings list fin_maps fin_sets pretty.

Local Open Scope R_scope.

(** ** Python exceptions

    The constructors carry the names of the specification's error taxonomy.
    [IndexOutOfRange] is Python's [IndexError], [AttributeNotFound] is the
    [AttributeError] of [setattr] on a host struct, [ResourceUnavailable]
    is [KeyError] / [ReferenceError] on a host collection.  Nothing in the
    script raises [LengthMismatch]. *)
Inductive Error : Type :=
  | IndexOutOfRange
  | LengthMismatch
  | AttributeNotFound
  | ResourceUnavailable.

Global Instance Error_eq_dec : EqDecision Error.
Proof. solve_decision. Defined.

(** ** Scene data *)

(** A vertex of a mesh: an identity and a position.  The identity stands
    for the identity of the Python [BMVert] object. *)
Record BMVert : Type := {
  v_index : nat;
  co : R * R * R
}.

(** A face is the tuple of the identities of its corner vertices. *)
Abbreviation Face := (list nat).

(** [bpy.types.Mesh]: geometry and material slots ([mesh.materials],
    by material name). *)
Record Mesh : Type := {
  vertices : list BMVert;
  polygons : list Face;
  mesh_materials : list string
}.

(** [bmesh.types.BMesh]: the editing buffer. *)
Record BMesh : Type := {
  bm_verts : list BMVert;
  bm_faces : list Face
}.

(** [bpy.types.Material]; its shader-node graph is opaque configuration. *)
Record Material : Type := {
  mat_name : string;
  use_nodes : bool
}.

(** [bpy.types.Object]: the transform, the name of the mesh datablock it
    points to ([obj.data]), and its animation channels, one per attribute
    path, each a finite map from frame to recorded value. *)
Record Object : Type := {
  location : list R;
  rotation_euler : list R;
  scale : list R;
  data : string;
  animation : gmap string (gmap Z (list R))
}.

(** A log of the host calls that were carried out, oldest first.  For a
    keyframe insertion the entry also holds the value the host read from
    the attribute. *)
Inductive HostCall : Type :=
  | CallSetattr (obj attribute : string) (v : list R)
  | CallKeyframeInsert (obj data_path : string) (frame : Z) (snapshot : list R).

Record World : Type := {
  objects : gmap string Object;      (* bpy.data.objects *)
  meshes : gmap string Mesh;         (* bpy.data.meshes *)
  materials : list Material;         (* bpy.data.materials *)
  active_object : option string;     (* bpy.context.active_object *)
  calls : list HostCall
}.

Definition set_objects (objs : gmap string Object) (w : World) : World :=
  {| objects := objs; meshes := meshes w; materials := materials w;
     active_object := active_object w; calls := calls w |}.

Definition set_meshes (ms : gmap string Mesh) (w : World) : World :=
  {| objects := objects w; meshes := ms; materials := materials w;
     active_object := active_object w; calls := calls w |}.

Definition set_materials (mats : list Material) (w : World) : World :=
  {| objects := objects w; meshes := meshes w; materials := mats;
     active_object := active_object w; calls := calls w |}.

Definition record_call (c : HostCall) (w : World) : World :=
  {| objects := objects w; meshes := meshes w; materials := materials w;
     active_object := active_object w; calls := calls w ++ [c] |}.

(** ** The [Host] monad: world-passing with exceptions

    A failing call leaves the world as it is at that point: what was
    written before the failure stays written. *)
Definition Host (A : Type) : Type := World → World * (Error + A).

Global Instance Host_ret : MRet Host := λ A a w, (w, inr a).
Global Instance Host_bind : MBind Host := λ A B f m w,
  match m w with
  | (w', inl e) => (w', inl e)
  | (w', inr a) => f a w'
  end.
Global Instance Host_throw : MThrow Error Host := λ A e w, (w, inl e).

(** [for x in xs: body(x)] *)
Fixpoint for_each {A : Type} (body : A → Host unit) (xs : list A) : Host unit :=
  match xs with
  | [] => mret tt
  | x :: xs' => body x ;; for_each body xs'
  end.

(** ** Host calls on objects

    Modelled from the spec: [setattr] on a host object and
    [Object.keyframe_insert] belong to the host application, not to the
    script.  Section 4.2 and section 6 of the specification give their
    contract: assignment replaces the attribute, an attribute path that
    does not resolve is an error, and keyframe insertion reads the
    attribute's current value and records it at the given time, a channel
    holding at most one value per time.  The model knows the three
    transform attributes the script assigns; the other attributes of a
    host object are outside it. *)

Definition get_attribute (attribute : string) (o : Object) : option (list R) :=
  if decide (attribute = "location") then Some (location o)
  else if decide (attribute = "rotation_euler") then Some (rotation_euler o)
  else if decide (attribute = "scale") then Some (scale o)
  else None.

Definition set_attribute (attribute : string) (v : list R) (o : Object) : option Object :=
  if decide (attribute = "location") then
    Some {| location := v; rotation_euler := rotation_euler o; scale := scale o;
            data := data o; animation := animation o |}
  else if decide (attribute = "rotation_euler") then
    Some {| location := location o; rotation_euler := v; scale := scale o;
            data := data o; animation := animation o |}
  else if decide (attribute = "scale") then
    Some {| location := location o; rotation_euler := rotation_euler o; scale := v;
            data := data o; animation := animation o |}
  else None.

(** The keyframes of one channel of an object; a channel that was never
    keyed has none. *)
Definition channel (data_path : string) (o : Object) : gmap Z (list R) :=
  default ∅ (animation o !! data_path).

Definition record_keyframe (data_path : string) (frame : Z) (v : list R) (o : Object) : Object :=
  {| location := location o; rotation_euler := rotation_euler o; scale := scale o;
     data := data o;
     animation := <[data_path := <[frame := v]> (channel data_path o)]> (animation o) |}.

(** [setattr(obj, attribute, v)] *)
Definition setattr (obj attribute : string) (v : list R) : Host unit := λ w,
  match objects w !! obj with
  | None => (w, inl ResourceUnavailable)
  | Some o =>
      match set_attribute attribute v o with
      | None => (w, inl AttributeNotFound)
      | Some o' =>
          (record_call (CallSetattr obj attribute v)
             (set_objects (<[obj := o']> (objects w)) w), inr tt)
      end
  end.

(** [obj.keyframe_insert(data_path=..., frame=...)] *)
Definition keyframe_insert (obj data_path : string) (frame : Z) : Host unit := λ w,
  match objects w !! obj with
  | None => (w, inl ResourceUnavailable)
  | Some o =>
      match get_attribute data_path o with
      | None => (w, inl AttributeNotFound)
      | Some v =>
          (record_call (CallKeyframeInsert obj data_path frame v)
             (set_objects (<[obj := record_keyframe data_path frame v o]> (objects w)) w),
           inr tt)
      end
  end.

(** ** The script's helper functions *)

(** [bpy.context.active_object.name] *)
Definition get_name : Host string := λ w,
  match active_object w with
  | None => (w, inl ResourceUnavailable)
  | Some name => (w, inr name)
  end.

Definition degToRadian (angle : R) : R := angle * (PI / 180).

(** [bpy.data.objects[name].location = coords] *)
Definition move_obj (name : string) (coords : list R) : Host unit :=
  setattr name "location" coords.

Definition rotate_obj (name : string) (angles : list R) : Host unit :=
  let rotation := degToRadian <$> angles in
  setattr name "rotation_euler" rotation.

Definition scale_obj (name : string) (s : list R) : Host unit :=
  setattr name "scale" s.

(** [for v, f in zip(values, frames): setattr(...); obj.keyframe_insert(...)].
    Python's [zip] stops at the end of the shorter sequence. *)
Definition add_keyframe_sequence (obj attribute : string)
    (values : list (list R)) (frames : list Z) : Host unit :=
  for_each (λ '(v, f), setattr obj attribute v ;; keyframe_insert obj attribute f)
           (zip values frames).

(** ** Host calls on meshes

    Modelled from the spec: [bmesh.new], [BMesh.from_mesh],
    [bmesh.ops.delete] with [context='VERTS'] and [BMesh.to_mesh] belong to
    the host application.  Section 3 and section 4.1 of the specification
    give their contract: the working copy holds the mesh's vertices and
    faces; deleting vertices removes each of them and every face that
    references one of them, and keeps every other vertex and face as it
    is, in order; committing writes the working copy's geometry back into
    the mesh.  Edges are not part of the specification's mesh and are left
    out. *)

Definition bmesh_new : BMesh := {| bm_verts := []; bm_faces := [] |}.

Definition from_mesh (bm : BMesh) (mesh : Mesh) : BMesh :=
  {| bm_verts := bm_verts bm ++ vertices mesh;
     bm_faces := bm_faces bm ++ polygons mesh |}.

Definition to_mesh (bm : BMesh) (mesh : Mesh) : Mesh :=
  {| vertices := bm_verts bm;
     polygons := bm_faces bm;
     mesh_materials := mesh_materials mesh |}.

(** A face is incident to a set of vertex identities when one of its
    corners is among them. *)
Definition incident (dead : list nat) (f : Face) : Prop :=
  Exists (λ i, i ∈ dead) f.

Global Instance incident_dec dead f : Decision (incident dead f).
Proof. unfold incident. apply _. Defined.

(** [bmesh.ops.delete(bm, geom=..., context='VERTS')] *)
Definition bmesh_ops_delete (bm : BMesh) (geom : list BMVert) : BMesh :=
  let dead := v_index <$> geom in
  {| bm_verts := filter (λ v, v_index v ∉ dead) (bm_verts bm);
     bm_faces := filter (λ f, ¬ incident dead f) (bm_faces bm) |}.

(** ** The geometry editor

    Lines 122 to 132 of the script, with the literal index [3] replaced by
    a set [S] of indices into the list of vertices: [verts[i]] raises
    [IndexError] when [i] is out of range.  [bm.free()] releases the
    working copy and has no effect on the mesh. *)
Definition derive_mesh (mesh : Mesh) (S : gset nat) : Error + Mesh :=
  let bm := from_mesh bmesh_new mesh in
  let verts := bm_verts bm in
  match mapM (λ i, verts !! i) (elements S) with
  | None => inl IndexOutOfRange
  | Some geom => inr (to_mesh (bmesh_ops_delete bm geom) mesh)
  end.

(** The same on the mesh of the context object, as the script runs it:
    [mesh = bpy.context.object.data] is a reference to the datablock, and
    [bm.to_mesh(mesh)] writes into that datablock.  The call that follows
    in the script, [bpy.ops.object.origin_set(type="ORIGIN_GEOMETRY")], is
    [origin_set_geometry] below. *)
Definition derive_object_mesh (S : gset nat) : Host unit := λ w,
  match active_object w with
  | None => (w, inl ResourceUnavailable)
  | Some name =>
      match objects w !! name with
      | None => (w, inl ResourceUnavailable)
      | Some o =>
          match meshes w !! data o with
          | None => (w, inl ResourceUnavailable)
          | Some mesh =>
              match derive_mesh mesh S with
              | inl e => (w, inl e)
              | inr mesh' => (set_meshes (<[data o := mesh']> (meshes w)) w, inr tt)
              end
          end
      end
  end.

(** [bmesh.ops.delete(bm, geom=[verts[3]], context='VERTS')] *)
Definition turn_cone_into_triangle : Host unit := derive_object_mesh {[3%nat]}.

(** ** The origin operator

    [bpy.ops.object.origin_set(type="ORIGIN_GEOMETRY")] (line 135) belongs
    to the host application; the script and the specification only name
    it.  The model follows the host's operator with its default centre,
    the median: the centre [c] of the mesh is the mean of the vertex
    positions (the zero vector for a mesh without vertices); every vertex
    is moved by [-c]; and the object's location moves by [c] carried to
    world space, that is scaled component by component by the object's
    scale and turned by its XYZ Euler rotation, so that the geometry stays
    where it was.  The operator acts on the selected objects; the model
    takes the active object, the only selection at that point of the
    script, without a parent.  Location, rotation and scale of a host
    object have three components; on anything else the model stops with
    an error. *)











(** ** Host calls on materials

    Modelled from the spec: [bpy.data.materials.get] and
    [bpy.data.materials.new] belong to the host application (section 6:
    get-or-create named material).  [get] returns the material of that
    name, or [None]; [new] appends a fresh material, under the requested
    name when it is free and otherwise under the first free name with a
    numeric suffix. *)

Definition materials_get (name : string) (w : World) : option Material :=
  List.find (λ m, bool_decide (mat_name m = name)) (materials w).

Definition pad3 (n : nat) : string :=
  if decide (n < 10)%nat then "00" +:+ pretty n
  else if decide (n < 100)%nat then "0" +:+ pretty n
  else pretty n.

Fixpoint first_free (base : string) (taken : list string) (fuel n : nat) : string :=
  let candidate := base +:+ "." +:+ pad3 n in
  match fuel with
  | O => candidate
  | S fuel' =>
      if decide (candidate ∈ taken) then first_free base taken fuel' (S n)
      else candidate
  end.

Definition unique_name (name : string) (taken : list string) : string :=
  if decide (name ∈ taken) then first_free name taken (length taken) 1 else name.

Definition materials_new (name : string) : Host Material := λ w,
  let m := {| mat_name := unique_name name (mat_name <$> materials w);
              use_nodes := false |} in
  (set_materials (materials w ++ [m]) w, inr m).

(** Python's [x or y] on a host lookup: [None] is falsy, a material is
    truthy, and [y] is only evaluated when [x] is falsy. *)
Definition py_or {A : Type} (x : option A) (y : Host A) : Host A :=
  match x with
  | Some a => mret a
  | None => y
  end.

(** [bpy.data.materials.get(mat_name) or bpy.data.materials.new(mat_name)] *)
Definition get_or_create_material (name : string) : Host Material := λ w,
  py_or (materials_get name w) (materials_new name) w.

Definition count_named (name : string) (mats : list Material) : nat :=
  length (filter (λ m, mat_name m = name) mats).

(** ** Material slots of the active object's mesh *)

(** Lines 111 to 114 on the list of slots: a non-empty collection is
    truthy, [materials[0] = mat] replaces the first slot, and
    [materials.append(mat)] adds a slot at the end. *)
Definition assign_slot (mat : string) (slots : list string) : list string :=
  match slots with
  | [] => slots ++ [mat]
  | _ :: _ => <[0%nat := mat]> slots
  end.

(** Line 173 on the list of slots: [materials[0] = mat] without a guard
    raises [IndexError] when there is no slot. *)
Definition replace_first_slot (mat : string) (slots : list string) : Error + list string :=
  match slots with
  | [] => inl IndexOutOfRange
  | _ :: _ => inr (<[0%nat := mat]> slots)
  end.

Definition set_mesh_materials (slots : list string) (mesh : Mesh) : Mesh :=
  {| vertices := vertices mesh; polygons := polygons mesh; mesh_materials := slots |}.

(** [cone = bpy.context.active_object] followed by the guarded
    assignment of lines 111 to 114; the slots live in the mesh datablock
    [cone.data]. *)
Definition assign_material (mat : Material) : Host unit := λ w,
  match active_object w with
  | None => (w, inl ResourceUnavailable)
  | Some name =>
      match objects w !! name with
      | None => (w, inl ResourceUnavailable)
      | Some cone =>
          match meshes w !! data cone with
          | None => (w, inl ResourceUnavailable)
          | Some mesh =>
              (set_meshes
                 (<[data cone :=
                      set_mesh_materials (assign_slot (mat_name mat) (mesh_materials mesh)) mesh]>
                    (meshes w)) w,
               inr tt)
          end
      end
  end.

(** [bpy.context.active_object.data.materials[0] = mat] (line 173) *)
Definition replace_first_material (mat : Material) : Host unit := λ w,
  match active_object w with
  | None => (w, inl ResourceUnavailable)
  | Some name =>
      match objects w !! name with
      | None => (w, inl ResourceUnavailable)
      | Some o =>
          match meshes w !! data o with
          | None => (w, inl ResourceUnavailable)
          | Some mesh =>
              match replace_first_slot (mat_name mat) (mesh_materials mesh) with
              | inl e => (w, inl e)
              | inr slots =>
                  (set_meshes (<[data o := set_mesh_materials slots mesh]> (meshes w)) w,
                   inr tt)
              end
          end
      end
  end.

(** ** Auxiliary definitions for the statements *)

(** What one iteration of the sequencer's loop does to the object: assign,
    then record. *)
Definition keyed (attribute : string) (o : Object) (p : list R * Z) : Object :=
  match set_attribute attribute p.1 o with
  | Some o' => record_keyframe attribute p.2 p.1 o'
  | None => o
  end.

(** The host calls of one iteration, in order. *)
Definition pair_calls (obj attribute : string) : list R * Z → list HostCall :=
  λ '(v, f), [CallSetattr obj attribute v; CallKeyframeInsert obj attribute f v].

(** Writing a list of (value, frame) pairs into a channel, in order. *)
Definition write_all (ch : gmap Z (list R)) (pairs : list (list R * Z)) : gmap Z (list R) :=
  foldl (λ ch p, <[p.2 := p.1]> ch) ch pairs.



(** The object after assigning [v] to an attribute that resolves. *)
Definition with_attribute (attribute : string) (v : list R) (o : Object) : Object :=
  default o (set_attribute attribute v o).

(** The object after a whole run of the sequencer over [pairs], in closed
    form: the attribute holds the last value and the channel holds all the
    pairs written in order. *)
Definition sequenced (attribute : string) (pairs : list (list R * Z)) (o : Object) : Object :=
  match last pairs with
  | None => o
  | Some (v, _) =>
      {| location := location (with_attribute attribute v o);
         rotation_euler := rotation_euler (with_attribute attribute v o);
         scale := scale (with_attribute attribute v o);
         data := data o;
         animation := <[attribute := write_all (channel attribute o) pairs]> (animation o) |}
  end.

(** Vertex identities are those of distinct Python objects. *)
Definition distinct_vertices (mesh : Mesh) : Prop :=
  NoDup (v_index <$> vertices mesh).

(** The mesh invariant of the data model: every face references only
    live vertices. *)
Definition faces_live (mesh : Mesh) : Prop :=
  ∀ f id, f ∈ polygons mesh → id ∈ f → id ∈ v_index <$> vertices mesh.

(** The identities of the vertices found at the positions in [S]. *)
Definition removed_ids (mesh : Mesh) (S : gset nat) : list nat :=
  v_index <$> omap (λ i, vertices mesh !! i) (elements S).

(** ** Sample data *)

(** A triangular-base pyramid: three base vertices, the apex, the base
    face and three side faces. *)
Definition pyramid (p0 p1 p2 p3 : R * R * R) (mats : list string) : Mesh :=
  {| vertices := [ {| v_index := 0; co := p0 |}; {| v_index := 1; co := p1 |};
                   {| v_index := 2; co := p2 |}; {| v_index := 3; co := p3 |} ];
     polygons := [ [0; 1; 2]; [0; 1; 3]; [1; 2; 3]; [2; 0; 3] ]%nat;
     mesh_materials := mats |}.

Definition sample_pyramid : Mesh :=
  pyramid (0, 0, 0) (1, 0, 0) (0, 1, 0) (0, 0, 1) ["Material"].

Definition sample_object : Object :=
  {| location := [0; 0; -0.25];
     rotation_euler := [degToRadian 90; degToRadian 180; degToRadian 0];
     scale := [0.75; 0.75; 0.75];
     data := "Cone";
     animation := ∅ |}.

Definition sample_world : World :=
  {| objects := {[ "Cone" := sample_object ]};
     meshes := {[ "Cone" := sample_pyramid ]};
     materials := [ {| mat_name := "Material"; use_nodes := true |} ];
     active_object := Some "Cone";
     calls := [] |}.



(** * Properties *)

(** ** Attributes of an object *)

Section attributes.
Implicit Types (o : Object) (v : list R) (attribute : string).

Lemma set_attribute_resolves attribute v o :
  is_Some (get_attribute attribute o) →
  ∃ o', set_attribute attribute v o = Some o'
        ∧ get_attribute attribute o' = Some v
        ∧ animation o' = animation o
        ∧ data o' = data o.
Proof.
  unfold get_attribute, set_attribute.
  repeat case_decide; intros [x Hx]; try discriminate;
    eexists; (split; [reflexivity|]); simpl; auto.
Qed.

Lemma set_attribute_unresolved attribute v o :
  get_attribute attribute o = None → set_attribute attribute v o = None.
Proof.
  unfold get_attribute, set_attribute.
  repeat case_decide; intros; try discriminate; reflexivity.
Qed.

Lemma get_attribute_record_keyframe attribute data_path frame v o :
  get_attribute attribute (record_keyframe data_path frame v o)
  = get_attribute attribute o.
Proof. reflexivity. Qed.

Lemma channel_record_keyframe_eq data_path frame v o :
  channel data_path (record_keyframe data_path frame v o)
  = <[frame := v]> (channel data_path o).
Proof. unfold channel at 1. simpl. by rewrite lookup_insert_eq. Qed.

Lemma channel_record_keyframe_ne data_path path' frame v o :
  data_path ≠ path' →
  channel path' (record_keyframe data_path frame v o) = channel path' o.
Proof. intros Hne. unfold channel. simpl. by rewrite lookup_insert_ne. Qed.
End attributes.

Lemma from_option_last_cons {A : Type} (l : list A) : ∀ (x : A) (d d' : option A),
  from_option Some d (last (x :: l)) = from_option Some d' (last (x :: l)).
Proof. induction l as [|y l IH]; intros x d d'; [done|]. apply (IH y). Qed.

(** ** One pass of the sequencer's loop on one object *)

Section sequencer.
Variables (obj attribute : string).

Let body : list R * Z → Host unit :=
  λ '(v, f), setattr obj attribute v ;; keyframe_insert obj attribute f.

Lemma keyed_resolves o p :
  is_Some (get_attribute attribute o) →
  get_attribute attribute (keyed attribute o p) = Some p.1
  ∧ data (keyed attribute o p) = data o
  ∧ channel attribute (keyed attribute o p) = <[p.2 := p.1]> (channel attribute o)
  ∧ ∀ path', attribute ≠ path' →
      channel path' (keyed attribute o p) = channel path' o.
Proof.
  intros Hres. unfold keyed.
  destruct (set_attribute_resolves attribute p.1 o Hres) as (o' & -> & Hget & Han & Hda).
  rewrite get_attribute_record_keyframe, channel_record_keyframe_eq.
  repeat split; [done|done| |].
  - unfold channel. by rewrite Han.
  - intros path' Hne. rewrite channel_record_keyframe_ne by done.
    unfold channel. by rewrite Han.
Qed.

Lemma body_run w o p :
  objects w !! obj = Some o →
  is_Some (get_attribute attribute o) →
  ∃ w', body p w = (w', inr tt)
        ∧ objects w' = <[obj := keyed attribute o p]> (objects w)
        ∧ meshes w' = meshes w
        ∧ materials w' = materials w
        ∧ active_object w' = active_object w
        ∧ calls w' = calls w ++ pair_calls obj attribute p.
Proof.
  intros Hobj Hres. destruct p as [v f].
  destruct (set_attribute_resolves attribute v o Hres) as (o' & Hset & Hget & _ & _).
  unfold body, keyed, mbind, Host_bind, setattr. simpl.
  rewrite Hobj, Hset. unfold keyframe_insert. simpl.
  rewrite lookup_insert_eq, Hget.
  eexists; split; [reflexivity|]. simpl.
  rewrite insert_insert_eq, <- app_assoc. done.
Qed.

Lemma for_each_run pairs : ∀ w o,
  objects w !! obj = Some o →
  is_Some (get_attribute attribute o) →
  ∃ w', for_each body pairs w = (w', inr tt)
        ∧ objects w' = <[obj := foldl (keyed attribute) o pairs]> (objects w)
        ∧ meshes w' = meshes w
        ∧ materials w' = materials w
        ∧ active_object w' = active_object w
        ∧ calls w' = calls w ++ pairs ≫= pair_calls obj attribute.
Proof.
  induction pairs as [|p pairs IH]; intros w o Hobj Hres.
  - exists w. simpl. rewrite insert_id by done. by rewrite app_nil_r.
  - destruct (body_run w o p Hobj Hres) as (w1 & Hrun & Hobjs & Hm & Hmat & Hact & Hcalls).
    destruct (IH w1 (keyed attribute o p)) as (w' & Hrun' & Hobjs' & Hm' & Hmat' & Hact' & Hcalls').
    { rewrite Hobjs. apply lookup_insert_eq. }
    { destruct (keyed_resolves o p Hres) as (-> & _). eauto. }
    exists w'. split.
    { change (for_each body (p :: pairs) w)
        with (mbind (λ _, for_each body pairs) (body p) w).
      unfold mbind, Host_bind. by rewrite Hrun. }
    rewrite Hobjs', Hobjs, insert_insert_eq, Hm', Hmat', Hact', Hcalls', Hcalls.
    simpl. by rewrite <- app_assoc.
Qed.

Lemma foldl_keyed pairs : ∀ o,
  is_Some (get_attribute attribute o) →
  let o' := foldl (keyed attribute) o pairs in
  get_attribute attribute o' = from_option Some (get_attribute attribute o) (last pairs.*1)
  ∧ data o' = data o
  ∧ channel attribute o' = write_all (channel attribute o) pairs
  ∧ ∀ path', attribute ≠ path' → channel path' o' = channel path' o.
Proof.
  induction pairs as [|p pairs IH]; intros o Hres; simpl.
  - done.
  - destruct (keyed_resolves o p Hres) as (Hget & Hda & Hch & Hother).
    destruct (IH (keyed attribute o p)) as (Hget' & Hda' & Hch' & Hother'); [by eauto|].
    simpl in *. unfold write_all in *. simpl.
    rewrite Hget', Hda', Hch', Hget, Hda, Hch. repeat split.
    + destruct pairs as [|q pairs]; [done|].
      exact (from_option_last_cons (pairs.*1) q.1 _ _).
    + intros path' Hne. by rewrite Hother', Hother.
Qed.
End sequencer.


(** ** Channels written by a sequence of pairs *)

Section channels.
Implicit Types (ch : gmap Z (list R)) (pairs : list (list R * Z)) (t : Z).

Lemma write_all_untouched pairs : ∀ ch t,
  t ∉ pairs.*2 → write_all ch pairs !! t = ch !! t.
Proof.
  induction pairs as [|[v f] pairs IH]; intros ch t Hnot; [done|].
  rewrite fmap_cons, not_elem_of_cons in Hnot. destruct Hnot as [Hne Hnot].
  unfold write_all in *. simpl. rewrite IH by done.
  by rewrite lookup_insert_ne.
Qed.

Lemma write_all_last_wins ch l1 v t l2 :
  t ∉ l2.*2 → write_all ch (l1 ++ (v, t) :: l2) !! t = Some v.
Proof.
  intros Hnot. unfold write_all. rewrite foldl_app. simpl.
  fold (write_all (<[t:=v]> (foldl (λ ch p, <[p.2:=p.1]> ch) ch l1)) l2).
  rewrite write_all_untouched by done. apply lookup_insert_eq.
Qed.

Lemma dom_write_all pairs : ∀ ch,
  dom (write_all ch pairs) = dom ch ∪ list_to_set pairs.*2.
Proof.
  induction pairs as [|[v f] pairs IH]; intros ch.
  - simpl. set_solver.
  - unfold write_all in *. simpl. rewrite IH, dom_insert_L. set_solver.
Qed.

Lemma size_write_all ch pairs :
  size (write_all ch pairs)
  = (size ch + size (list_to_set pairs.*2 ∖ dom ch : gset Z))%nat.
Proof.
  rewrite <- !size_dom, dom_write_all.
  rewrite <- size_union by set_solver.
  f_equal. apply set_eq. intros x.
  rewrite !elem_of_union, elem_of_difference.
  destruct (decide (x ∈ dom ch)); naive_solver.
Qed.
End channels.





(** The sequencer on an attribute that does not resolve. *)
Lemma for_each_unresolved obj attribute w o p pairs :
  objects w !! obj = Some o →
  get_attribute attribute o = None →
  for_each (λ '(v, f), setattr obj attribute v ;; keyframe_insert obj attribute f)
    (p :: pairs) w = (w, inl AttributeNotFound).
Proof.
  intros Hobj Hnone. destruct p as [v f]. simpl.
  unfold mbind, Host_bind, setattr.
  by rewrite Hobj, (set_attribute_unresolved _ v _ Hnone).
Qed.

(** ** The keyframe sequencer *)

(** A run on an object that exists, for an attribute that resolves: the
    sequencer returns normally, rewrites the one object by folding the
    loop body over the zipped pairs, and logs two host calls per pair. *)
Lemma add_keyframe_sequence_run w obj attribute values frames o :
  objects w !! obj = Some o →
  is_Some (get_attribute attribute o) →
  ∃ w', add_keyframe_sequence obj attribute values frames w = (w', inr tt)
        ∧ objects w' = <[obj := foldl (keyed attribute) o (zip values frames)]> (objects w)
        ∧ meshes w' = meshes w
        ∧ materials w' = materials w
        ∧ active_object w' = active_object w
        ∧ calls w' = calls w ++ zip values frames ≫= pair_calls obj attribute.
Proof. intros Hobj Hres. exact (for_each_run obj attribute _ w o Hobj Hres). Qed.

Lemma channel_sample_object path : channel path sample_object = ∅.
Proof. reflexivity. Qed.

Lemma sample_object_lookup : objects sample_world !! "Cone" = Some sample_object.
Proof. apply lookup_singleton_eq. Qed.

Lemma sample_scale_resolves : is_Some (get_attribute "scale" sample_object).
Proof. by eexists. Qed.




(** The pair written at position [i] is the last one for its frame when no
    later position names that frame. *)
Lemma zip_split_last (values : list (list R)) (frames : list Z) i v t :
  values !! i = Some v →
  frames !! i = Some t →
  (∀ j, (i < j)%nat → frames !! j ≠ Some t) →
  ∃ l1 l2, zip values frames = l1 ++ (v, t) :: l2 ∧ t ∉ l2.*2.
Proof.
  intros Hv Ht Hlater.
  assert (zip values frames !! i = Some (v, t)) as Hi.
  { apply lookup_zip_with_Some. eauto. }
  exists (take i (zip values frames)), (drop (S i) (zip values frames)).
  split; [by rewrite take_drop_middle|].
  intros Hin. apply list_elem_of_lookup in Hin as [k Hk].
  rewrite list_lookup_fmap, lookup_drop in Hk.
  destruct (zip values frames !! (S i + k)%nat) as [[v' t']|] eqn:Hz; [|done].
  simpl in Hk. injection Hk as ->.
  apply lookup_zip_with_Some in Hz as (x & y & [= -> ->] & _ & Hy).
  apply (Hlater (S i + k)%nat); [lia|done].
Qed.

(** C2, as the code has it: for equal-length sequences on an existing
    object and a resolving attribute, the call returns normally; the value
    recorded at [frames[i]] is [values[i]] whenever no later position
    repeats that frame (last write wins); keyframes at frames that are not
    in [frames] are unaltered; the channel grows by the number of distinct
    input frames that were not keyed before, which is [L] exactly when the
    frames are pairwise distinct and none was keyed before; the other
    channels of the object are unaltered. *)
Theorem add_keyframe_sequence_channel w obj attribute values frames o :
  length values = length frames →
  objects w !! obj = Some o →
  is_Some (get_attribute attribute o) →
  ∃ w' o', add_keyframe_sequence obj attribute values frames w = (w', inr tt)
    ∧ objects w' !! obj = Some o'
    ∧ (∀ i v t, values !! i = Some v → frames !! i = Some t →
                (∀ j, (i < j)%nat → frames !! j ≠ Some t) →
                channel attribute o' !! t = Some v)
    ∧ (∀ t, t ∉ frames → channel attribute o' !! t = channel attribute o !! t)
    ∧ size (channel attribute o')
      = (size (channel attribute o)
         + size (list_to_set frames ∖ dom (channel attribute o) : gset Z))%nat
    ∧ (NoDup frames → (∀ t, t ∈ frames → channel attribute o !! t = None) →
       size (channel attribute o') = (size (channel attribute o) + length values)%nat)
    ∧ (∀ path', attribute ≠ path' → channel path' o' = channel path' o).
Proof.
  intros Hlen Hobj Hres.
  destruct (add_keyframe_sequence_run w obj attribute values frames o Hobj Hres)
    as (w' & Hrun & Hobjs & _).
  destruct (foldl_keyed attribute (zip values frames) o Hres)
    as (_ & _ & Hch & Hother).
  assert ((zip values frames).*2 = frames) as Hsnd by (apply snd_zip; lia).
  exists w', (foldl (keyed attribute) o (zip values frames)).
  split; [done|]. split; [rewrite Hobjs; apply lookup_insert_eq|].
  rewrite Hch. repeat split.
  - intros i v t Hv Ht Hlater.
    destruct (zip_split_last values frames i v t Hv Ht Hlater) as (l1 & l2 & -> & Hnot).
    by apply write_all_last_wins.
  - intros t Hnot. apply write_all_untouched. by rewrite Hsnd.
  - by rewrite size_write_all, Hsnd.
  - intros Hnodup Hfresh. rewrite size_write_all, Hsnd. f_equal.
    rewrite Hlen, <- (size_list_to_set (C := gset Z) frames Hnodup).
    f_equal. apply set_eq. intros t.
    rewrite elem_of_difference, elem_of_list_to_set, elem_of_dom.
    split; [tauto|]. intros Hin. split; [done|].
    rewrite (Hfresh t Hin). by intros [? ?].
  - exact Hother.
Qed.

Lemma add_keyframe_sequence_channel_witness :
  ∃ w' o', add_keyframe_sequence "Cone" "scale" [[1; 1; 1]; [2; 2; 2]] [10; 20]%Z sample_world
           = (w', inr tt)
    ∧ objects w' !! "Cone" = Some o'
    ∧ (∀ i v t, [[1; 1; 1]; [2; 2; 2]] !! i = Some v → [10; 20]%Z !! i = Some t →
                (∀ j, (i < j)%nat → [10; 20]%Z !! j ≠ Some t) →
                channel "scale" o' !! t = Some v)
    ∧ (∀ t, t ∉ [10; 20]%Z → channel "scale" o' !! t = channel "scale" sample_object !! t)
    ∧ size (channel "scale" o')
      = (size (channel "scale" sample_object)
         + size (list_to_set [10; 20]%Z ∖ dom (channel "scale" sample_object) : gset Z))%nat
    ∧ (NoDup [10; 20]%Z →
       (∀ t, t ∈ [10; 20]%Z → channel "scale" sample_object !! t = None) →
       size (channel "scale" o')
       = (size (channel "scale" sample_object) + length [[1; 1; 1]; [2; 2; 2]])%nat)
    ∧ (∀ path', "scale" ≠ path' → channel path' o' = channel path' sample_object).
Proof.
  exact (add_keyframe_sequence_channel sample_world "Cone" "scale"
           [[1; 1; 1]; [2; 2; 2]] [10; 20]%Z sample_object eq_refl
           sample_object_lookup sample_scale_resolves).
Defined.

(** C2 as the specification words it fails when two input frames
    coincide: the channel grows by 1, not by [L = 2]; the one keyframe
    holds the later value. *)
Lemma coinciding_frames_counterexample :
  ∃ w' o', add_keyframe_sequence "Cone" "scale" [[1; 1; 1]; [2; 2; 2]] [10; 10]%Z sample_world
           = (w', inr tt)
    ∧ objects w' !! "Cone" = Some o'
    ∧ size (channel "scale" o') = (size (channel "scale" sample_object) + 1)%nat
    ∧ size (channel "scale" o') ≠ (size (channel "scale" sample_object) + 2)%nat
    ∧ channel "scale" o' !! 10%Z = Some [2; 2; 2].
Proof.
  destruct (add_keyframe_sequence_run sample_world "Cone" "scale"
              [[1; 1; 1]; [2; 2; 2]] [10; 10]%Z sample_object
              sample_object_lookup sample_scale_resolves)
    as (w' & Hrun & Hobjs & _).
  destruct (foldl_keyed "scale" (zip [[1; 1; 1]; [2; 2; 2]] [10; 10]%Z) sample_object
              sample_scale_resolves) as (_ & _ & Hch & _).
  exists w', (foldl (keyed "scale") sample_object (zip [[1; 1; 1]; [2; 2; 2]] [10; 10]%Z)).
  split; [done|]. split; [rewrite Hobjs; apply lookup_insert_eq|].
  rewrite Hch, channel_sample_object.
  assert (write_all ∅ (zip [[1; 1; 1]; [2; 2; 2]] [10; 10]%Z) = {[ 10%Z := [2; 2; 2] ]}) as ->.
  { unfold write_all. simpl. by rewrite insert_insert_eq. }
  rewrite map_size_singleton, map_size_empty, lookup_singleton_eq.
  repeat split; lia.
Qed.



(** C6: the scale animation of the script.  On an object whose scale
    channel holds no keyframe yet, the call leaves exactly four keyframes,
    at frames 10, 60, 100 and 250, holding the four scale vectors, and the
    object's scale is the last vector. *)
Theorem scale_sequence_scenario w obj o :
  objects w !! obj = Some o →
  channel "scale" o = ∅ →
  ∃ w' o',
    add_keyframe_sequence obj "scale"
      [[0.75; 0.75; 0.75]; [0.5; 0.5; 0.5]; [0; 0; 0]; [0.75; 0.75; 0.75]]
      [10; 60; 100; 250]%Z w = (w', inr tt)
    ∧ objects w' !! obj = Some o'
    ∧ size (channel "scale" o') = 4%nat
    ∧ dom (channel "scale" o') = ({[10; 60; 100; 250]} : gset Z)%Z
    ∧ channel "scale" o' !! 10%Z = Some [0.75; 0.75; 0.75]
    ∧ channel "scale" o' !! 60%Z = Some [0.5; 0.5; 0.5]
    ∧ channel "scale" o' !! 100%Z = Some [0; 0; 0]
    ∧ channel "scale" o' !! 250%Z = Some [0.75; 0.75; 0.75]
    ∧ scale o' = [0.75; 0.75; 0.75].
Proof.
  intros Hobj Hempty.
  assert (is_Some (get_attribute "scale" o)) as Hres by (by eexists).
  destruct (add_keyframe_sequence_run w obj "scale"
              [[0.75; 0.75; 0.75]; [0.5; 0.5; 0.5]; [0; 0; 0]; [0.75; 0.75; 0.75]]
              [10; 60; 100; 250]%Z o Hobj Hres) as (w' & Hrun & Hobjs & _).
  destruct (foldl_keyed "scale"
              (zip [[0.75; 0.75; 0.75]; [0.5; 0.5; 0.5]; [0; 0; 0]; [0.75; 0.75; 0.75]]
                   [10; 60; 100; 250]%Z) o Hres) as (_ & _ & Hch & _).
  eexists w', _. split; [done|]. split; [rewrite Hobjs; apply lookup_insert_eq|].
  rewrite Hch, Hempty. unfold write_all. simpl foldl.
  split.
  { rewrite <- size_dom, !dom_insert_L, dom_empty_L. reflexivity. }
  split.
  { rewrite !dom_insert_L, dom_empty_L. set_solver. }
  split; [by rewrite !lookup_insert_ne, lookup_insert_eq by done|].
  split; [by rewrite !lookup_insert_ne, lookup_insert_eq by done|].
  split; [by rewrite !lookup_insert_ne, lookup_insert_eq by done|].
  split; [by rewrite lookup_insert_eq|].
  reflexivity.
Qed.

Lemma scale_sequence_scenario_witness :
  ∃ w' o',
    add_keyframe_sequence "Cone" "scale"
      [[0.75; 0.75; 0.75]; [0.5; 0.5; 0.5]; [0; 0; 0]; [0.75; 0.75; 0.75]]
      [10; 60; 100; 250]%Z sample_world = (w', inr tt)
    ∧ objects w' !! "Cone" = Some o'
    ∧ size (channel "scale" o') = 4%nat
    ∧ dom (channel "scale" o') = ({[10; 60; 100; 250]} : gset Z)%Z
    ∧ channel "scale" o' !! 10%Z = Some [0.75; 0.75; 0.75]
    ∧ channel "scale" o' !! 60%Z = Some [0.5; 0.5; 0.5]
    ∧ channel "scale" o' !! 100%Z = Some [0; 0; 0]
    ∧ channel "scale" o' !! 250%Z = Some [0.75; 0.75; 0.75]
    ∧ scale o' = [0.75; 0.75; 0.75].
Proof.
  exact (scale_sequence_scenario sample_world "Cone" sample_object
           sample_object_lookup (channel_sample_object "scale")).
Defined.

(** C7, as the code has it: on an existing object and an attribute path
    that does not resolve, the sequencer fails with [AttributeNotFound]
    at the first assignment, before any keyframe is inserted, when both
    sequences are non-empty; when one of them is empty the loop body never
    runs and the call returns normally.  The world is unchanged either
    way. *)
Theorem add_keyframe_sequence_unresolved w obj attribute values frames o :
  objects w !! obj = Some o →
  get_attribute attribute o = None →
  add_keyframe_sequence obj attribute values frames w
  = (w, if decide (values = [] ∨ frames = []) then inr tt else inl AttributeNotFound).
Proof.
  intros Hobj Hnone. unfold add_keyframe_sequence.
  destruct values as [|v values], frames as [|f frames];
    try (rewrite decide_True by auto; reflexivity).
  rewrite decide_False by (intros [?|?]; discriminate).
  change (zip (v :: values) (f :: frames)) with ((v, f) :: zip values frames).
  by apply (for_each_unresolved obj attribute w o).
Qed.

Lemma add_keyframe_sequence_unresolved_witness :
  add_keyframe_sequence "Cone" "no_such_attribute" [[1; 1; 1]] [10]%Z sample_world
  = (sample_world, inl AttributeNotFound).
Proof.
  exact (add_keyframe_sequence_unresolved sample_world "Cone" "no_such_attribute" [[1; 1; 1]] [10]%Z
           sample_object sample_object_lookup eq_refl).
Defined.

(** C7 as the specification words it fails on empty sequences: nothing is
    assigned, so nothing fails. *)
Lemma unresolved_attribute_counterexample :
  get_attribute "no_such_attribute" sample_object = None
  ∧ add_keyframe_sequence "Cone" "no_such_attribute" [] [] sample_world = (sample_world, inr tt)
  ∧ add_keyframe_sequence "Cone" "no_such_attribute" [[1; 1; 1]] [] sample_world = (sample_world, inr tt).
Proof. repeat split. Qed.

(** ** The geometry editor *)

Lemma mapM_omap {A B : Type} (f : A → option B) (l : list A) (k : list B) :
  mapM f l = Some k → omap f l = k.
Proof.
  intros HF%mapM_Some.
  induction HF as [|x y l k Hxy _ IH]; [done|].
  cbn [omap list_omap]. rewrite Hxy. f_equal. exact IH.
Qed.

Lemma NoDup_fmap_inj_on {A B : Type} (f : A → B) (l : list A) (x y : A) :
  NoDup (f <$> l) → x ∈ l → y ∈ l → f x = f y → x = y.
Proof.
  induction l as [|a l IH]; intros Hnd Hx Hy Hxy; [by apply elem_of_nil in Hx|].
  rewrite fmap_cons in Hnd. apply NoDup_cons in Hnd as [Ha Hnd].
  apply elem_of_cons in Hx as [->|Hx]; apply elem_of_cons in Hy as [->|Hy].
  - done.
  - exfalso. apply Ha. rewrite Hxy. by apply list_elem_of_fmap_2.
  - exfalso. apply Ha. rewrite <- Hxy. by apply list_elem_of_fmap_2.
  - by apply IH.
Qed.

Lemma filter_complement_length {A : Type} (P : A → Prop) `{∀ x, Decision (P x)}
    (l : list A) :
  (length (filter P l) + length (filter (λ x, ¬ P x) l))%nat = length l.
Proof.
  rewrite <- length_app. apply Permutation_length, filter_app_complement.
Qed.

Section geometry.
Implicit Types (mesh : Mesh) (S : gset nat) (verts geom : list BMVert) (idx : list nat).

(** The vertices picked at distinct positions of a duplicate-free list are
    distinct. *)
Lemma picked_NoDup verts idx geom :
  NoDup verts → NoDup idx →
  Forall2 (λ i v, verts !! i = Some v) idx geom →
  NoDup geom.
Proof.
  intros Hverts Hidx HF. induction HF as [|i v idx geom Hiv HF IH].
  - constructor.
  - apply NoDup_cons in Hidx as [Hi Hidx]. apply NoDup_cons. split; [|by apply IH].
    intros Hin. apply list_elem_of_lookup in Hin as [k Hk].
    destruct (Forall2_lookup_r _ _ _ _ _ HF Hk) as (j & Hj & Hjv).
    assert (i = j) as -> by exact (NoDup_lookup verts i j v Hverts Hiv Hjv).
    apply Hi. by eapply list_elem_of_lookup_2.
Qed.

Lemma picked_elem_of verts idx geom v :
  Forall2 (λ i v, verts !! i = Some v) idx geom →
  v ∈ geom ↔ ∃ i, i ∈ idx ∧ verts !! i = Some v.
Proof.
  intros HF. split.
  - intros [k Hk]%list_elem_of_lookup.
    destruct (Forall2_lookup_r _ _ _ _ _ HF Hk) as (j & Hj & Hjv).
    exists j. split; [by eapply list_elem_of_lookup_2|done].
  - intros (i & [k Hk]%list_elem_of_lookup & Hiv).
    destruct (Forall2_lookup_l _ _ _ _ _ HF Hk) as (u & Hu & Hiu).
    assert (u = v) as -> by congruence. by eapply list_elem_of_lookup_2.
Qed.

(** Deleting the picked vertices removes as many vertices as positions
    were picked. *)
Lemma removed_length verts idx geom :
  NoDup (v_index <$> verts) → NoDup idx →
  Forall2 (λ i v, verts !! i = Some v) idx geom →
  length (filter (λ v, v_index v ∈ v_index <$> geom) verts) = length idx.
Proof.
  intros Hids Hidx HF.
  assert (NoDup verts) as Hverts by (by eapply NoDup_fmap_1).
  rewrite (Forall2_length _ _ _ HF).
  apply Permutation_length, NoDup_Permutation.
  - by apply NoDup_filter.
  - by eapply picked_NoDup.
  - intros v. rewrite list_elem_of_filter. split.
    + intros [(u & Huv & Hu)%list_elem_of_fmap Hv].
      assert (u ∈ verts) as Hu'.
      { apply (picked_elem_of _ _ _ _ HF) in Hu as (i & _ & Hi).
        by eapply list_elem_of_lookup_2. }
      by rewrite (NoDup_fmap_inj_on v_index verts v u Hids Hv Hu' Huv).
    + intros Hv. split; [by apply list_elem_of_fmap_2|].
      apply (picked_elem_of _ _ _ _ HF) in Hv as (i & _ & Hi).
      by eapply list_elem_of_lookup_2.
Qed.

Lemma derive_mesh_geom mesh S geom :
  mapM (λ i, vertices mesh !! i) (elements S) = Some geom →
  derive_mesh mesh S
  = inr {| vertices := filter (λ v, v_index v ∉ v_index <$> geom) (vertices mesh);
           polygons := filter (λ f, ¬ incident (v_index <$> geom) f) (polygons mesh);
           mesh_materials := mesh_materials mesh |}.
Proof.
  intros Hgeom. unfold derive_mesh.
  change (bm_verts (from_mesh bmesh_new mesh)) with (vertices mesh).
  by rewrite Hgeom.
Qed.

Lemma derive_mesh_in_range mesh S :
  (∀ i, i ∈ S → (i < length (vertices mesh))%nat) →
  ∃ geom, mapM (λ i, vertices mesh !! i) (elements S) = Some geom.
Proof.
  intros Hrange. apply mapM_is_Some, Forall_forall. intros i Hi.
  apply lookup_lt_is_Some_2, Hrange. by apply elem_of_elements.
Qed.

(** An index out of range makes the derivation fail. *)
Lemma derive_mesh_out_of_range mesh S i :
  i ∈ S → (length (vertices mesh) ≤ i)%nat →
  derive_mesh mesh S = inl IndexOutOfRange.
Proof.
  intros Hi Hge. unfold derive_mesh.
  change (bm_verts (from_mesh bmesh_new mesh)) with (vertices mesh).
  destruct (mapM _ _) as [geom|] eqn:Hgeom; [|done].
  assert (is_Some (mapM (λ i, vertices mesh !! i) (elements S))) as Hsome by eauto.
  apply mapM_is_Some in Hsome. rewrite Forall_forall in Hsome.
  destruct (Hsome i) as [v Hv]; [by apply elem_of_elements|].
  simpl in Hv. apply lookup_lt_Some in Hv. lia.
Qed.
End geometry.

Lemma filter_none_dead {A : Type} (f : A → nat) (l : list A) :
  filter (λ x, f x ∉ ([] : list nat)) l = l.
Proof.
  induction l as [|x l IH]; [done|].
  rewrite filter_cons_True by apply not_elem_of_nil. by rewrite IH.
Qed.

Lemma filter_none_incident (l : list Face) :
  filter (λ f, ¬ incident [] f) l = l.
Proof.
  induction l as [|x l IH]; [done|].
  rewrite filter_cons_True; [by rewrite IH|].
  unfold incident. rewrite Exists_exists. intros (i & _ & Hi).
  by apply elem_of_nil in Hi.
Qed.

Lemma derive_mesh_materials mesh S mesh' :
  derive_mesh mesh S = inr mesh' → mesh_materials mesh' = mesh_materials mesh.
Proof.
  unfold derive_mesh. destruct (mapM _ _); [|done]. by intros [= <-].
Qed.

(** C4: on a mesh whose vertices are distinct objects, and a set [S] of
    indices in range, the derivation succeeds; the faces of the result are
    the faces of the mesh, in order, without those that have a corner
    among the vertices at the positions in [S]; the result has
    [|vertices| - |S|] vertices.  A triangular-base pyramid (4 vertices,
    4 faces) without vertex 3 is 3 vertices and 1 face, the base. *)
Theorem derive_mesh_removes :
  (∀ mesh (S : gset nat),
     distinct_vertices mesh →
     (∀ i, i ∈ S → (i < length (vertices mesh))%nat) →
     ∃ mesh', derive_mesh mesh S = inr mesh'
       ∧ polygons mesh'
         = filter (λ f, ¬ incident (removed_ids mesh S) f) (polygons mesh)
       ∧ (∀ f, f ∈ polygons mesh' ↔
               f ∈ polygons mesh
               ∧ ¬ ∃ i v, i ∈ S ∧ vertices mesh !! i = Some v ∧ v_index v ∈ f)
       ∧ length (vertices mesh') = (length (vertices mesh) - size S)%nat)
  ∧ (∀ p0 p1 p2 p3 mats,
     length (vertices (pyramid p0 p1 p2 p3 mats)) = 4%nat
     ∧ length (polygons (pyramid p0 p1 p2 p3 mats)) = 4%nat
     ∧ ∃ mesh', derive_mesh (pyramid p0 p1 p2 p3 mats) {[3%nat]} = inr mesh'
         ∧ length (vertices mesh') = 3%nat
         ∧ polygons mesh' = [[0; 1; 2]]%nat).
Proof.
  split.
  - intros mesh S Hdistinct Hrange.
    destruct (derive_mesh_in_range mesh S Hrange) as [geom Hgeom].
    pose proof (proj1 (mapM_Some _ _ _) Hgeom) as HF.
    eexists. split; [by apply derive_mesh_geom|]. simpl.
    unfold removed_ids. rewrite (mapM_omap _ _ _ Hgeom).
    split; [done|]. split.
    + intros f. rewrite list_elem_of_filter. unfold incident. rewrite Exists_exists.
      split.
      * intros [Hnot Hf]. split; [done|]. intros (i & v & Hi & Hv & Hin).
        apply Hnot. exists (v_index v). split; [done|].
        apply list_elem_of_fmap_2, (picked_elem_of _ _ _ _ HF).
        exists i. by rewrite elem_of_elements.
      * intros [Hf Hnot]. split; [|done]. intros (id & Hin & Hid).
        apply list_elem_of_fmap in Hid as (v & -> & Hv).
        apply (picked_elem_of _ _ _ _ HF) in Hv as (i & Hi & Hv).
        apply Hnot. exists i, v. by rewrite <- elem_of_elements.
    + pose proof (filter_complement_length
                    (λ v, v_index v ∈ v_index <$> geom) (vertices mesh)) as Hsplit.
      rewrite (removed_length _ _ _ Hdistinct (NoDup_elements S) HF) in Hsplit.
      change (length (elements S)) with (size S) in Hsplit. lia.
  - intros p0 p1 p2 p3 mats. split; [done|]. split; [done|].
    eexists. split.
    + apply derive_mesh_geom. rewrite elements_singleton. reflexivity.
    + split; reflexivity.
Qed.

Lemma derive_mesh_removes_witness :
  ∃ mesh', derive_mesh sample_pyramid {[0%nat; 3%nat]} = inr mesh'
    ∧ polygons mesh'
      = filter (λ f, ¬ incident
                  (removed_ids sample_pyramid
                     {[0%nat; 3%nat]}) f)
          (polygons sample_pyramid)
    ∧ (∀ f, f ∈ polygons mesh' ↔
            f ∈ polygons sample_pyramid
            ∧ ¬ ∃ i v, i ∈ ({[0%nat; 3%nat]} : gset nat)
                       ∧ vertices sample_pyramid !! i
                         = Some v
                       ∧ v_index v ∈ f)
    ∧ length (vertices mesh')
      = (length (vertices sample_pyramid)
         - size ({[0%nat; 3%nat]} : gset nat))%nat.
Proof.
  apply (proj1 derive_mesh_removes).
  - unfold distinct_vertices. simpl. apply NoDup_ListNoDup.
    repeat constructor; simpl; intuition lia.
  - intros i Hi. simpl. set_solver by lia.
Defined.

(** C8: with the empty removal set the derivation returns the mesh as it
    is, vertices and faces in their order, and so does applying it twice. *)
Theorem derive_mesh_empty mesh :
  derive_mesh mesh ∅ = inr mesh
  ∧ match derive_mesh mesh ∅ with
    | inr mesh' => derive_mesh mesh' ∅
    | inl e => inl e
    end = inr mesh.
Proof.
  assert (∀ m, derive_mesh m ∅ = inr m) as Hone.
  { intros m. rewrite (derive_mesh_geom m ∅ []) by (by rewrite elements_empty).
    simpl. rewrite filter_none_dead, filter_none_incident. by destruct m. }
  split; [apply Hone|]. rewrite Hone. apply Hone.
Qed.


(** ** The derivation followed by the origin operator *)






(** ** Rotation in degrees *)

(** C9: [degToRadian angle] is [angle * (pi / 180)], and on an object
    that exists [rotate_obj name angles] returns normally and sets the
    object's [rotation_euler], component by component, to the angles
    converted to radians; location and scale are untouched. *)
Theorem rotate_obj_degrees_to_radians w name angles o :
  objects w !! name = Some o →
  (∀ angle, degToRadian angle = angle * (PI / 180))
  ∧ ∃ w' o', rotate_obj name angles w = (w', inr tt)
      ∧ objects w' !! name = Some o'
      ∧ rotation_euler o' = (λ angle, angle * (PI / 180)) <$> angles
      ∧ (∀ i angle, angles !! i = Some angle →
                    rotation_euler o' !! i = Some (angle * (PI / 180)))
      ∧ length (rotation_euler o') = length angles
      ∧ location o' = location o
      ∧ scale o' = scale o.
Proof.
  intros Hobj. split; [done|].
  unfold rotate_obj, setattr. rewrite Hobj. simpl.
  eexists _, _. split; [reflexivity|]. simpl.
  split; [apply lookup_insert_eq|]. simpl.
  split; [done|]. split; [|split; [by rewrite length_fmap|done]].
  intros i angle Hi. by rewrite list_lookup_fmap, Hi.
Qed.

Lemma rotate_obj_degrees_to_radians_witness :
  ∃ w' o', rotate_obj "Cone" [90; 180; 0] sample_world = (w', inr tt)
      ∧ objects w' !! "Cone" = Some o'
      ∧ rotation_euler o' = (λ angle, angle * (PI / 180)) <$> [90; 180; 0]
      ∧ (∀ i angle, [90; 180; 0] !! i = Some angle →
                    rotation_euler o' !! i = Some (angle * (PI / 180)))
      ∧ length (rotation_euler o') = length [90; 180; 0]
      ∧ location o' = location sample_object
      ∧ scale o' = scale sample_object.
Proof.
  exact (proj2 (rotate_obj_degrees_to_radians sample_world "Cone" [90; 180; 0]
                  sample_object sample_object_lookup)).
Defined.

(** ** Materials *)

Lemma materials_get_Some name w m :
  materials_get name w = Some m → m ∈ materials w ∧ mat_name m = name.
Proof.
  unfold materials_get. intros [Hin Hname]%List.find_some.
  split; [by apply list_elem_of_In|]. by apply bool_decide_eq_true in Hname.
Qed.

Lemma materials_get_None name w :
  materials_get name w = None → name ∉ mat_name <$> materials w.
Proof.
  unfold materials_get. intros Hnone (m & -> & Hm)%list_elem_of_fmap.
  apply list_elem_of_In in Hm.
  pose proof (List.find_none _ _ Hnone m Hm) as Hfalse.
  by apply bool_decide_eq_false in Hfalse.
Qed.

Lemma count_named_zero name mats :
  name ∉ mat_name <$> mats → count_named name mats = 0%nat.
Proof.
  unfold count_named. induction mats as [|m mats IH]; intros Hnot; [done|].
  rewrite fmap_cons, not_elem_of_cons in Hnot. destruct Hnot as [Hne Hnot].
  rewrite filter_cons_False by congruence. by apply IH.
Qed.

Lemma count_named_snoc name mats m :
  mat_name m = name →
  count_named name (mats ++ [m]) = S (count_named name mats).
Proof.
  intros Hname. unfold count_named.
  rewrite filter_app, length_app, filter_cons_True by done. simpl. lia.
Qed.

Lemma count_named_pos name mats m :
  m ∈ mats → mat_name m = name → (1 ≤ count_named name mats)%nat.
Proof.
  intros Hin Hname. unfold count_named.
  assert (m ∈ filter (λ m, mat_name m = name) mats) as Hf
    by (by apply list_elem_of_filter).
  destruct (filter _ mats); [by apply elem_of_nil in Hf|simpl; lia].
Qed.

(** C10: the get-or-create idiom.  When a material of that name exists
    the call returns it and leaves the world as it is; when none exists it
    appends exactly one material, of that name, and returns it.  Either
    way the number of materials of that name afterwards is the number
    before or 1, whichever is larger, and names that were unique stay
    unique. *)
Theorem get_or_create_material_no_duplicate w name :
  (∀ m, materials_get name w = Some m →
        get_or_create_material name w = (w, inr m)
        ∧ m ∈ materials w ∧ mat_name m = name)
  ∧ (materials_get name w = None →
     ∃ m, get_or_create_material name w = (set_materials (materials w ++ [m]) w, inr m)
          ∧ mat_name m = name
          ∧ count_named name (materials w) = 0%nat
          ∧ count_named name (materials w ++ [m]) = 1%nat)
  ∧ count_named name (materials (get_or_create_material name w).1)
    = max 1 (count_named name (materials w))
  ∧ (NoDup (mat_name <$> materials w) →
     NoDup (mat_name <$> materials (get_or_create_material name w).1)).
Proof.
  unfold get_or_create_material.
  destruct (materials_get name w) as [m|] eqn:Hget.
  - destruct (materials_get_Some _ _ _ Hget) as [Hin Hname].
    simpl. split; [by intros ? [= <-]|]. split; [done|].
    pose proof (count_named_pos _ _ _ Hin Hname). split; [lia|done].
  - pose proof (materials_get_None _ _ Hget) as Hnot.
    pose proof (count_named_zero _ _ Hnot) as Hzero.
    assert (unique_name name (mat_name <$> materials w) = name) as Huniq
      by (unfold unique_name; by rewrite decide_False).
    simpl. unfold materials_new. rewrite Huniq. simpl.
    split; [done|]. split; [|split].
    + intros _. eexists. split; [reflexivity|]. simpl.
      split; [done|]. split; [done|]. by rewrite count_named_snoc, Hzero.
    + by rewrite count_named_snoc, Hzero.
    + intros Hnd. rewrite fmap_app. apply NoDup_app. split; [done|].
      split; [|apply NoDup_singleton].
      intros x Hx. simpl. rewrite list_elem_of_singleton. by intros ->.
Qed.

Lemma get_or_create_material_no_duplicate_witness :
  (get_or_create_material "Material" sample_world
   = (sample_world, inr {| mat_name := "Material"; use_nodes := true |})
   ∧ {| mat_name := "Material"; use_nodes := true |} ∈ materials sample_world
   ∧ mat_name {| mat_name := "Material"; use_nodes := true |} = "Material")
  ∧ ∃ m, get_or_create_material "X-ray" sample_world
         = (set_materials (materials sample_world ++ [m]) sample_world, inr m)
       ∧ mat_name m = "X-ray"
       ∧ count_named "X-ray" (materials sample_world) = 0%nat
       ∧ count_named "X-ray" (materials sample_world ++ [m]) = 1%nat.
Proof.
  split.
  - exact (proj1 (get_or_create_material_no_duplicate sample_world "Material")
             _ eq_refl).
  - exact (proj1 (proj2 (get_or_create_material_no_duplicate sample_world "X-ray"))
             eq_refl).
Defined.


(** ** The mesh invariants are kept, and the script's own step *)

Lemma derive_mesh_invariant mesh S mesh' :
  derive_mesh mesh S = inr mesh' →
  (distinct_vertices mesh → distinct_vertices mesh')
  ∧ (faces_live mesh → faces_live mesh').
Proof.
  unfold derive_mesh.
  change (bm_verts (from_mesh bmesh_new mesh)) with (vertices mesh).
  destruct (mapM _ _) as [geom|]; [|done]. intros [= <-]. simpl. split.
  - unfold distinct_vertices. simpl. intros Hnd.
    induction (vertices mesh) as [|v l IH]; [constructor|].
    rewrite fmap_cons in Hnd. apply NoDup_cons in Hnd as [Hv Hnd].
    destruct (decide (v_index v ∉ v_index <$> geom)) as [Hk|Hk].
    + rewrite filter_cons_True by done. rewrite fmap_cons. apply NoDup_cons.
      split; [|by apply IH]. intros (u & Hu & Hin)%list_elem_of_fmap.
      apply list_elem_of_filter in Hin as [_ Hin].
      apply Hv. rewrite Hu. by apply list_elem_of_fmap_2.
    + rewrite filter_cons_False by done. by apply IH.
  - unfold faces_live. simpl. intros Hlive f id Hf Hid.
    apply list_elem_of_filter in Hf as [Hnot Hf].
    destruct (proj1 (list_elem_of_fmap _ _ _) (Hlive f id Hf Hid)) as (v & -> & Hv).
    apply list_elem_of_fmap_2, list_elem_of_filter. split; [|done].
    intros Hdead. apply Hnot. unfold incident. apply Exists_exists. eauto.
Qed.

(** Line 128 on the sample scene: the cone's mesh becomes the base
    triangle, and the object and its material slots stay as they are. *)
Example turn_cone_into_triangle_sample :
  ∃ w', turn_cone_into_triangle sample_world = (w', inr tt)
    ∧ objects w' = objects sample_world
    ∧ ∃ mesh', meshes w' !! "Cone" = Some mesh'
        ∧ v_index <$> vertices mesh' = [0; 1; 2]%nat
        ∧ polygons mesh' = [[0; 1; 2]]%nat
        ∧ mesh_materials mesh' = ["Material"].
Proof.
  unfold turn_cone_into_triangle, derive_object_mesh. simpl.
  rewrite lookup_singleton_eq. simpl. rewrite lookup_singleton_eq.
  rewrite (derive_mesh_geom sample_pyramid {[3%nat]}
             [ {| v_index := 3; co := (0, 0, 1) |} ])
    by (by rewrite elements_singleton).
  eexists. split; [reflexivity|]. simpl. split; [done|].
  eexists. split; [apply lookup_insert_eq|]. by repeat split.
Qed.

(** * Further properties of the script's functions *)

(** ** The sequencer in closed form *)

Lemma resolves_cases attribute o :
  is_Some (get_attribute attribute o) →
  attribute = "location" ∨ attribute = "rotation_euler" ∨ attribute = "scale".
Proof.
  unfold get_attribute. repeat case_decide; intros [x Hx]; try discriminate; auto.
Qed.

Lemma last_cons_is_Some {A : Type} (x : A) (l : list A) : is_Some (last (x :: l)).
Proof.
  revert x. induction l as [|y l IH]; intros x; [by eexists|]. apply (IH y).
Qed.

Lemma foldl_keyed_closed attribute pairs : ∀ o,
  is_Some (get_attribute attribute o) →
  foldl (keyed attribute) o pairs = sequenced attribute pairs o.
Proof.
  induction pairs as [|[v f] pairs IH]; intros o Hres; [done|].
  simpl foldl. rewrite IH.
  2: { destruct (keyed_resolves attribute o (v, f) Hres) as (-> & _). eauto. }
  destruct pairs as [|q pairs].
  - destruct (resolves_cases _ _ Hres) as [->|[->| ->]]; reflexivity.
  - unfold sequenced.
    change (last ((v, f) :: q :: pairs)) with (last (q :: pairs)).
    destruct (last_cons_is_Some q pairs) as [[v' f'] ->].
    destruct (keyed_resolves attribute o (v, f) Hres) as (_ & Hda & Hch & _).
    rewrite Hch, Hda.
    change (write_all (channel attribute o) ((v, f) :: q :: pairs))
      with (write_all (<[f:=v]> (channel attribute o)) (q :: pairs)).
    destruct (resolves_cases _ _ Hres) as [->|[->| ->]];
      unfold keyed, with_attribute; simpl; f_equal; apply insert_insert_eq.
Qed.

(** The last (value, frame) pair for a frame that occurs. *)
Lemma last_pair_split (pairs : list (list R * Z)) (t : Z) :
  t ∈ pairs.*2 → ∃ l1 v l2, pairs = l1 ++ (v, t) :: l2 ∧ t ∉ l2.*2.
Proof.
  induction pairs as [|[v f] pairs IH]; intros Hin; [by apply elem_of_nil in Hin|].
  destruct (decide (t ∈ pairs.*2)) as [Hlater|Hnot].
  - destruct (IH Hlater) as (l1 & v' & l2 & -> & Hl2).
    by exists ((v, f) :: l1), v', l2.
  - rewrite fmap_cons in Hin. apply elem_of_cons in Hin as [->|Hin]; [|done].
    by exists [], v, pairs.
Qed.

Lemma write_all_idempotent (ch : gmap Z (list R)) pairs :
  write_all (write_all ch pairs) pairs = write_all ch pairs.
Proof.
  apply map_eq. intros t.
  destruct (decide (t ∈ pairs.*2)) as [Hin|Hnot].
  - destruct (last_pair_split pairs t Hin) as (l1 & v & l2 & -> & Hl2).
    by rewrite !write_all_last_wins.
  - by rewrite !write_all_untouched.
Qed.

Lemma write_all_NoDup_lookup (ch : gmap Z (list R)) pairs v t :
  NoDup pairs.*2 → (v, t) ∈ pairs → write_all ch pairs !! t = Some v.
Proof.
  intros Hnd Hin. apply list_elem_of_split in Hin as (l1 & l2 & ->).
  apply write_all_last_wins.
  rewrite fmap_app, fmap_cons in Hnd.
  apply NoDup_app in Hnd as (_ & _ & Hnd). by apply NoDup_cons in Hnd as [? _].
Qed.

Lemma write_all_permutation (ch : gmap Z (list R)) pairs pairs' :
  NoDup pairs.*2 → pairs ≡ₚ pairs' → write_all ch pairs = write_all ch pairs'.
Proof.
  intros Hnd Hperm.
  assert (NoDup pairs'.*2) as Hnd' by (by rewrite <- Hperm).
  apply map_eq. intros t.
  destruct (decide (t ∈ pairs.*2)) as [Hin|Hnot].
  - apply list_elem_of_fmap in Hin as ([v t'] & -> & Hin). simpl.
    rewrite (write_all_NoDup_lookup ch pairs v t' Hnd Hin).
    symmetry. apply write_all_NoDup_lookup; [done|]. by rewrite <- Hperm.
  - rewrite !write_all_untouched; [done| |done]. by rewrite <- Hperm.
Qed.

Section closed_form.
Implicit Types (o : Object) (pairs : list (list R * Z)) (a b : string).

Lemma sequenced_none a pairs o : last pairs = None → sequenced a pairs o = o.
Proof. intros Hlast. unfold sequenced. by rewrite Hlast. Qed.

Lemma sequenced_some a pairs o v f :
  last pairs = Some (v, f) →
  sequenced a pairs o
  = {| location := location (with_attribute a v o);
       rotation_euler := rotation_euler (with_attribute a v o);
       scale := scale (with_attribute a v o);
       data := data o;
       animation := <[a := write_all (channel a o) pairs]> (animation o) |}.
Proof. intros Hlast. unfold sequenced. by rewrite Hlast. Qed.

Lemma channel_sequenced_eq a pairs o :
  channel a (sequenced a pairs o) = write_all (channel a o) pairs.
Proof.
  destruct (last pairs) as [[v f]|] eqn:Hlast.
  - rewrite (sequenced_some _ _ _ _ _ Hlast). unfold channel at 1. simpl.
    by rewrite lookup_insert_eq.
  - rewrite (sequenced_none _ _ _ Hlast). apply last_None in Hlast. by subst.
Qed.

Lemma channel_sequenced_ne a b pairs o :
  a ≠ b → channel b (sequenced a pairs o) = channel b o.
Proof.
  intros Hne. destruct (last pairs) as [[v f]|] eqn:Hlast.
  - rewrite (sequenced_some _ _ _ _ _ Hlast). unfold channel. simpl.
    by rewrite lookup_insert_ne.
  - by rewrite (sequenced_none _ _ _ Hlast).
Qed.

Lemma get_attribute_sequenced_eq a pairs o :
  is_Some (get_attribute a o) →
  get_attribute a (sequenced a pairs o)
  = from_option Some (get_attribute a o) (last pairs.*1).
Proof.
  intros Hres. rewrite <- foldl_keyed_closed by done.
  by destruct (foldl_keyed a pairs o Hres) as (-> & _).
Qed.

Lemma get_attribute_sequenced_ne a b pairs o :
  is_Some (get_attribute a o) → a ≠ b →
  get_attribute b (sequenced a pairs o) = get_attribute b o.
Proof.
  intros Hres Hne. destruct (last pairs) as [[v f]|] eqn:Hlast.
  - rewrite (sequenced_some _ _ _ _ _ Hlast).
    destruct (resolves_cases _ _ Hres) as [->|[->| ->]];
      unfold get_attribute, with_attribute; simpl;
      repeat case_decide; congruence.
  - by rewrite (sequenced_none _ _ _ Hlast).
Qed.

Lemma sequenced_idempotent a pairs o :
  is_Some (get_attribute a o) →
  sequenced a pairs (sequenced a pairs o) = sequenced a pairs o.
Proof.
  intros Hres. destruct (last pairs) as [[v f]|] eqn:Hlast.
  - rewrite (sequenced_some a pairs (sequenced a pairs o) v f Hlast).
    rewrite channel_sequenced_eq, write_all_idempotent.
    rewrite !(sequenced_some a pairs o v f Hlast).
    destruct (resolves_cases _ _ Hres) as [->|[->| ->]];
      unfold with_attribute; simpl; f_equal; apply insert_insert_eq.
  - by rewrite !(sequenced_none _ _ _ Hlast).
Qed.

Lemma sequenced_commute a b pa pb o :
  is_Some (get_attribute a o) → is_Some (get_attribute b o) → a ≠ b →
  sequenced b pb (sequenced a pa o) = sequenced a pa (sequenced b pb o).
Proof.
  intros Ha Hb Hne.
  destruct (last pa) as [[va fa]|] eqn:Hla; destruct (last pb) as [[vb fb]|] eqn:Hlb.
  - rewrite (sequenced_some b pb (sequenced a pa o) vb fb Hlb).
    rewrite (sequenced_some a pa (sequenced b pb o) va fa Hla).
    rewrite channel_sequenced_ne by done.
    rewrite channel_sequenced_ne by done.
    rewrite !(sequenced_some a pa o va fa Hla), !(sequenced_some b pb o vb fb Hlb).
    destruct (resolves_cases _ _ Ha) as [->|[->| ->]];
      destruct (resolves_cases _ _ Hb) as [->|[->| ->]]; try done;
      unfold with_attribute; simpl; f_equal; by apply insert_insert_ne.
  - by rewrite (sequenced_none b pb _ Hlb), (sequenced_none b pb _ Hlb).
  - by rewrite (sequenced_none a pa _ Hla), (sequenced_none a pa _ Hla).
  - by rewrite (sequenced_none a pa _ Hla), (sequenced_none b pb _ Hlb),
      (sequenced_none a pa _ Hla).
Qed.
End closed_form.

(** A run of the sequencer in closed form. *)
Lemma add_keyframe_sequence_closed w obj attribute values frames o :
  objects w !! obj = Some o →
  is_Some (get_attribute attribute o) →
  ∃ w', add_keyframe_sequence obj attribute values frames w = (w', inr tt)
        ∧ objects w' = <[obj := sequenced attribute (zip values frames) o]> (objects w)
        ∧ meshes w' = meshes w
        ∧ materials w' = materials w
        ∧ active_object w' = active_object w.
Proof.
  intros Hobj Hres.
  destruct (add_keyframe_sequence_run w obj attribute values frames o Hobj Hres)
    as (w' & Hrun & Hobjs & Hm & Hmat & Hact & _).
  exists w'. rewrite foldl_keyed_closed in Hobjs by done. done.
Qed.

(** ** The sequencer: frame and live value *)

(** X1: a run on an existing object and a resolving attribute touches
    that object only: every other object, the meshes, the materials and the
    active object are as before, and on the object itself the mesh pointer
    and every other attribute keep their value. *)
Theorem add_keyframe_sequence_frame w obj attribute values frames o :
  objects w !! obj = Some o →
  is_Some (get_attribute attribute o) →
  ∃ w' o', add_keyframe_sequence obj attribute values frames w = (w', inr tt)
    ∧ objects w' !! obj = Some o'
    ∧ (∀ other, other ≠ obj → objects w' !! other = objects w !! other)
    ∧ meshes w' = meshes w
    ∧ materials w' = materials w
    ∧ active_object w' = active_object w
    ∧ data o' = data o
    ∧ (∀ b, attribute ≠ b → get_attribute b o' = get_attribute b o).
Proof.
  intros Hobj Hres.
  destruct (add_keyframe_sequence_closed w obj attribute values frames o Hobj Hres)
    as (w' & Hrun & Hobjs & Hm & Hmat & Hact).
  exists w', (sequenced attribute (zip values frames) o).
  split; [done|]. rewrite Hobjs. split; [apply lookup_insert_eq|].
  split; [by intros other Hne; rewrite lookup_insert_ne|].
  split; [done|]. split; [done|]. split; [done|]. split.
  - rewrite <- foldl_keyed_closed by done.
    by destruct (foldl_keyed attribute (zip values frames) o Hres) as (_ & -> & _).
  - intros b Hne. by apply get_attribute_sequenced_ne.
Qed.

Lemma add_keyframe_sequence_frame_witness :
  ∃ w' o', add_keyframe_sequence "Cone" "scale" [[1; 1; 1]; [2; 2; 2]] [10; 20]%Z sample_world
           = (w', inr tt)
    ∧ objects w' !! "Cone" = Some o'
    ∧ (∀ other, other ≠ "Cone" → objects w' !! other = objects sample_world !! other)
    ∧ meshes w' = meshes sample_world
    ∧ materials w' = materials sample_world
    ∧ active_object w' = active_object sample_world
    ∧ data o' = data sample_object
    ∧ (∀ b, "scale" ≠ b → get_attribute b o' = get_attribute b sample_object).
Proof.
  exact (add_keyframe_sequence_frame sample_world "Cone" "scale" [[1; 1; 1]; [2; 2; 2]] [10; 20]%Z
           sample_object sample_object_lookup sample_scale_resolves).
Defined.

(** X2: after a run the object's live attribute holds the last value
    that was paired with a frame; when no pair was processed it keeps the
    value it had.  For [values] no longer than [frames] that last value is
    the last element of [values]. *)
Theorem add_keyframe_sequence_live_value w obj attribute values frames o :
  objects w !! obj = Some o →
  is_Some (get_attribute attribute o) →
  ∃ w' o', add_keyframe_sequence obj attribute values frames w = (w', inr tt)
    ∧ objects w' !! obj = Some o'
    ∧ get_attribute attribute o'
      = from_option Some (get_attribute attribute o) (last (zip values frames).*1)
    ∧ (length values ≤ length frames →
       get_attribute attribute o'
       = from_option Some (get_attribute attribute o) (last values)).
Proof.
  intros Hobj Hres.
  destruct (add_keyframe_sequence_closed w obj attribute values frames o Hobj Hres)
    as (w' & Hrun & Hobjs & _).
  exists w', (sequenced attribute (zip values frames) o).
  split; [done|]. rewrite Hobjs. split; [apply lookup_insert_eq|].
  rewrite get_attribute_sequenced_eq by done. split; [done|].
  intros Hlen. by rewrite fst_zip.
Qed.

Lemma add_keyframe_sequence_live_value_witness :
  ∃ w' o', add_keyframe_sequence "Cone" "scale" [[1; 1; 1]; [2; 2; 2]] [10; 20]%Z sample_world
           = (w', inr tt)
    ∧ objects w' !! "Cone" = Some o'
    ∧ get_attribute "scale" o'
      = from_option Some (get_attribute "scale" sample_object)
          (last (zip [[1; 1; 1]; [2; 2; 2]] [10; 20]%Z).*1)
    ∧ (length [[1; 1; 1]; [2; 2; 2]] ≤ length [10; 20]%Z →
       get_attribute "scale" o'
       = from_option Some (get_attribute "scale" sample_object) (last [[1; 1; 1]; [2; 2; 2]])).
Proof.
  exact (add_keyframe_sequence_live_value sample_world "Cone" "scale"
           [[1; 1; 1]; [2; 2; 2]] [10; 20]%Z sample_object sample_object_lookup
           sample_scale_resolves).
Defined.

(** ** The sequencer: order of the pairs, repeated runs, two attributes *)

Lemma snd_zip_sublist {A B : Type} (l : list A) : ∀ k : list B,
  (zip l k).*2 `sublist_of` k.
Proof.
  induction l as [|x l IH]; intros [|y k]; simpl;
    try apply sublist_nil_l. by apply sublist_skip.
Qed.

(** X3: when the frames are pairwise distinct the order of the
    (value, frame) pairs does not matter for the keyframes: two runs from
    the same scene whose zipped pairs are permutations of one another
    leave the same channel. *)
Theorem add_keyframe_sequence_order_irrelevant
    w obj attribute values frames values' frames' o :
  objects w !! obj = Some o →
  is_Some (get_attribute attribute o) →
  NoDup frames →
  zip values frames ≡ₚ zip values' frames' →
  ∃ w1 o1 w2 o2,
    add_keyframe_sequence obj attribute values frames w = (w1, inr tt)
    ∧ add_keyframe_sequence obj attribute values' frames' w = (w2, inr tt)
    ∧ objects w1 !! obj = Some o1
    ∧ objects w2 !! obj = Some o2
    ∧ channel attribute o1 = channel attribute o2.
Proof.
  intros Hobj Hres Hnd Hperm.
  destruct (add_keyframe_sequence_closed w obj attribute values frames o Hobj Hres)
    as (w1 & Hrun1 & Hobjs1 & _).
  destruct (add_keyframe_sequence_closed w obj attribute values' frames' o Hobj Hres)
    as (w2 & Hrun2 & Hobjs2 & _).
  eexists w1, _, w2, _. split; [done|]. split; [done|].
  rewrite Hobjs1, Hobjs2. split; [apply lookup_insert_eq|].
  split; [apply lookup_insert_eq|].
  rewrite !channel_sequenced_eq. apply write_all_permutation; [|done].
  exact (sublist_NoDup _ _ Hnd (snd_zip_sublist values frames)).
Qed.

Lemma add_keyframe_sequence_order_irrelevant_witness :
  ∃ w1 o1 w2 o2,
    add_keyframe_sequence "Cone" "scale" [[1; 1; 1]; [2; 2; 2]] [10; 20]%Z sample_world = (w1, inr tt)
    ∧ add_keyframe_sequence "Cone" "scale" [[2; 2; 2]; [1; 1; 1]] [20; 10]%Z sample_world
      = (w2, inr tt)
    ∧ objects w1 !! "Cone" = Some o1
    ∧ objects w2 !! "Cone" = Some o2
    ∧ channel "scale" o1 = channel "scale" o2.
Proof.
  apply (add_keyframe_sequence_order_irrelevant sample_world "Cone" "scale"
           [[1; 1; 1]; [2; 2; 2]] [10; 20]%Z [[2; 2; 2]; [1; 1; 1]] [20; 10]%Z
           sample_object sample_object_lookup sample_scale_resolves).
  - apply NoDup_ListNoDup. repeat constructor; simpl; intuition lia.
  - simpl. apply perm_swap.
Defined.

(** X4: running the same sequence a second time changes nothing in the
    scene's objects: the second run rewrites the same keyframes with the
    same values and leaves the same live value. *)
Theorem add_keyframe_sequence_twice w obj attribute values frames o :
  objects w !! obj = Some o →
  is_Some (get_attribute attribute o) →
  ∃ w1 w2,
    add_keyframe_sequence obj attribute values frames w = (w1, inr tt)
    ∧ add_keyframe_sequence obj attribute values frames w1 = (w2, inr tt)
    ∧ objects w2 = objects w1
    ∧ meshes w2 = meshes w1
    ∧ materials w2 = materials w1.
Proof.
  intros Hobj Hres.
  destruct (add_keyframe_sequence_closed w obj attribute values frames o Hobj Hres)
    as (w1 & Hrun1 & Hobjs1 & Hm1 & Hmat1 & _).
  assert (objects w1 !! obj = Some (sequenced attribute (zip values frames) o)) as Hobj1
    by (rewrite Hobjs1; apply lookup_insert_eq).
  assert (is_Some (get_attribute attribute (sequenced attribute (zip values frames) o)))
    as Hres1.
  { rewrite get_attribute_sequenced_eq by done.
    destruct Hres as [x ->]. destruct (last _); by eexists. }
  destruct (add_keyframe_sequence_closed w1 obj attribute values frames _ Hobj1 Hres1)
    as (w2 & Hrun2 & Hobjs2 & Hm2 & Hmat2 & _).
  exists w1, w2. split; [done|]. split; [done|]. split; [|done].
  rewrite Hobjs2, sequenced_idempotent by done.
  by rewrite Hobjs1, insert_insert_eq.
Qed.

Lemma add_keyframe_sequence_twice_witness :
  ∃ w1 w2,
    add_keyframe_sequence "Cone" "scale" [[1; 1; 1]; [2; 2; 2]] [10; 10]%Z sample_world = (w1, inr tt)
    ∧ add_keyframe_sequence "Cone" "scale" [[1; 1; 1]; [2; 2; 2]] [10; 10]%Z w1 = (w2, inr tt)
    ∧ objects w2 = objects w1
    ∧ meshes w2 = meshes w1
    ∧ materials w2 = materials w1.
Proof.
  exact (add_keyframe_sequence_twice sample_world "Cone" "scale" [[1; 1; 1]; [2; 2; 2]] [10; 10]%Z
           sample_object sample_object_lookup sample_scale_resolves).
Defined.

(** X5: sequences on two different attributes of one object are
    independent, as the rotation and the scale sequence of the script are:
    both orders of the two calls succeed and leave the same objects, the
    second call leaves the first call's channel as it is, and the channel
    of each attribute is what a run of that sequence alone leaves. *)
Theorem add_keyframe_sequence_independent w obj a b va fa vb fb o :
  objects w !! obj = Some o →
  is_Some (get_attribute a o) →
  is_Some (get_attribute b o) →
  a ≠ b →
  ∃ wa wab wb wba oab,
    add_keyframe_sequence obj a va fa w = (wa, inr tt)
    ∧ add_keyframe_sequence obj b vb fb wa = (wab, inr tt)
    ∧ add_keyframe_sequence obj b vb fb w = (wb, inr tt)
    ∧ add_keyframe_sequence obj a va fa wb = (wba, inr tt)
    ∧ objects wab = objects wba
    ∧ objects wab !! obj = Some oab
    ∧ channel a oab = write_all (channel a o) (zip va fa)
    ∧ channel b oab = write_all (channel b o) (zip vb fb).
Proof.
  intros Hobj Ha Hb Hne.
  destruct (add_keyframe_sequence_closed w obj a va fa o Hobj Ha)
    as (wa & Hruna & Hobjsa & _).
  destruct (add_keyframe_sequence_closed w obj b vb fb o Hobj Hb)
    as (wb & Hrunb & Hobjsb & _).
  assert (is_Some (get_attribute b (sequenced a (zip va fa) o))) as Hb'
    by (by rewrite get_attribute_sequenced_ne).
  assert (is_Some (get_attribute a (sequenced b (zip vb fb) o))) as Ha'
    by (by rewrite get_attribute_sequenced_ne).
  destruct (add_keyframe_sequence_closed wa obj b vb fb (sequenced a (zip va fa) o))
    as (wab & Hrunab & Hobjsab & _); [rewrite Hobjsa; apply lookup_insert_eq|done|].
  destruct (add_keyframe_sequence_closed wb obj a va fa (sequenced b (zip vb fb) o))
    as (wba & Hrunba & Hobjsba & _); [rewrite Hobjsb; apply lookup_insert_eq|done|].
  exists wa, wab, wb, wba, (sequenced b (zip vb fb) (sequenced a (zip va fa) o)).
  repeat (split; [done|]).
  rewrite Hobjsab, Hobjsba, Hobjsa, Hobjsb, !insert_insert_eq.
  split; [by rewrite sequenced_commute|].
  split; [apply lookup_insert_eq|].
  split.
  - rewrite channel_sequenced_ne by done. apply channel_sequenced_eq.
  - rewrite channel_sequenced_eq. by rewrite channel_sequenced_ne.
Qed.

Lemma sample_rotation_resolves : is_Some (get_attribute "rotation_euler" sample_object).
Proof. by eexists. Qed.

Lemma add_keyframe_sequence_independent_witness :
  ∃ wa wab wb wba oab,
    add_keyframe_sequence "Cone" "rotation_euler" [[1; 1; 1]; [2; 2; 2]] [20; 70]%Z sample_world
    = (wa, inr tt)
    ∧ add_keyframe_sequence "Cone" "scale" [[3; 3; 3]; [4; 4; 4]] [10; 60]%Z wa = (wab, inr tt)
    ∧ add_keyframe_sequence "Cone" "scale" [[3; 3; 3]; [4; 4; 4]] [10; 60]%Z sample_world
      = (wb, inr tt)
    ∧ add_keyframe_sequence "Cone" "rotation_euler" [[1; 1; 1]; [2; 2; 2]] [20; 70]%Z wb
      = (wba, inr tt)
    ∧ objects wab = objects wba
    ∧ objects wab !! "Cone" = Some oab
    ∧ channel "rotation_euler" oab
      = write_all (channel "rotation_euler" sample_object) (zip [[1; 1; 1]; [2; 2; 2]] [20; 70]%Z)
    ∧ channel "scale" oab
      = write_all (channel "scale" sample_object) (zip [[3; 3; 3]; [4; 4; 4]] [10; 60]%Z).
Proof.
  apply (add_keyframe_sequence_independent sample_world "Cone" "rotation_euler" "scale"
           [[1; 1; 1]; [2; 2; 2]] [20; 70]%Z [[3; 3; 3]; [4; 4; 4]] [10; 60]%Z sample_object
           sample_object_lookup sample_rotation_resolves sample_scale_resolves).
  discriminate.
Defined.

(** ** The transform setters *)

Lemma bind_ok {A B : Type} (m : Host A) (f : A → Host B) w w1 a :
  m w = (w1, inr a) → (m ≫= f) w = f a w1.
Proof. intros Hm. unfold mbind, Host_bind. by rewrite Hm. Qed.

Lemma setattr_ok obj attribute v w o o' :
  objects w !! obj = Some o →
  set_attribute attribute v o = Some o' →
  ∃ w', setattr obj attribute v w = (w', inr tt)
        ∧ objects w' = <[obj := o']> (objects w)
        ∧ meshes w' = meshes w
        ∧ materials w' = materials w
        ∧ active_object w' = active_object w.
Proof.
  intros Hobj Hset. unfold setattr. rewrite Hobj, Hset. by eexists.
Qed.

(** X7: on an existing object the three setters act on three separate
    attributes.  After [rotate_obj], [move_obj] and [scale_obj] (lines 101
    to 106) the object has the given location, the angles in radians and
    the given scale; its mesh pointer and its keyframes are untouched, and
    so is every other object.  Calling the three in the opposite order
    leaves the same objects. *)
Theorem setters_compose w name coords angles s o :
  objects w !! name = Some o →
  ∃ w1 w2,
    (rotate_obj name angles ;; move_obj name coords ;; scale_obj name s) w = (w1, inr tt)
    ∧ (scale_obj name s ;; move_obj name coords ;; rotate_obj name angles) w = (w2, inr tt)
    ∧ objects w1
      = <[name := {| location := coords;
                     rotation_euler := degToRadian <$> angles;
                     scale := s;
                     data := data o;
                     animation := animation o |}]> (objects w)
    ∧ objects w2 = objects w1
    ∧ meshes w1 = meshes w
    ∧ materials w1 = materials w.
Proof.
  intros Hobj. unfold rotate_obj, move_obj, scale_obj.
  destruct (setattr_ok name "rotation_euler" (degToRadian <$> angles) w o _ Hobj eq_refl)
    as (wa & Hra & Hoa & Hma & Hta & _).
  destruct (setattr_ok name "location" coords wa _ _
              ltac:(rewrite Hoa; apply lookup_insert_eq) eq_refl)
    as (wb & Hrb & Hob & Hmb & Htb & _).
  destruct (setattr_ok name "scale" s wb _ _
              ltac:(rewrite Hob; apply lookup_insert_eq) eq_refl)
    as (wc & Hrc & Hoc & Hmc & Htc & _).
  destruct (setattr_ok name "scale" s w o _ Hobj eq_refl)
    as (wx & Hrx & Hox & _).
  destruct (setattr_ok name "location" coords wx _ _
              ltac:(rewrite Hox; apply lookup_insert_eq) eq_refl)
    as (wy & Hry & Hoy & _).
  destruct (setattr_ok name "rotation_euler" (degToRadian <$> angles) wy _ _
              ltac:(rewrite Hoy; apply lookup_insert_eq) eq_refl)
    as (wz & Hrz & Hoz & _).
  exists wc, wz.
  split. { rewrite (bind_ok _ _ _ _ _ Hra), (bind_ok _ _ _ _ _ Hrb). exact Hrc. }
  split. { rewrite (bind_ok _ _ _ _ _ Hrx), (bind_ok _ _ _ _ _ Hry). exact Hrz. }
  rewrite Hoc, Hob, Hoa, Hoz, Hoy, Hox, !insert_insert_eq. simpl.
  split; [done|]. split; [done|]. split; congruence.
Qed.

Lemma setters_compose_witness :
  ∃ w1 w2,
    (rotate_obj "Cone" [90; 180; 0] ;; move_obj "Cone" [0; 0; -0.25] ;;
     scale_obj "Cone" [0.75; 0.75; 0.75]) sample_world = (w1, inr tt)
    ∧ (scale_obj "Cone" [0.75; 0.75; 0.75] ;; move_obj "Cone" [0; 0; -0.25] ;;
       rotate_obj "Cone" [90; 180; 0]) sample_world = (w2, inr tt)
    ∧ objects w1
      = <["Cone" := {| location := [0; 0; -0.25];
                       rotation_euler := degToRadian <$> [90; 180; 0];
                       scale := [0.75; 0.75; 0.75];
                       data := data sample_object;
                       animation := animation sample_object |}]> (objects sample_world)
    ∧ objects w2 = objects w1
    ∧ meshes w1 = meshes sample_world
    ∧ materials w1 = materials sample_world.
Proof.
  exact (setters_compose sample_world "Cone" [0; 0; -0.25] [90; 180; 0]
           [0.75; 0.75; 0.75] sample_object sample_object_lookup).
Defined.

(** ** The geometry editor: failure and invariants *)

(** X8: the derivation fails exactly when [S] names a position at or
    beyond the number of vertices, as [verts[i]] does; the only error it
    can raise is [IndexOutOfRange]. *)
Theorem derive_mesh_fails_iff mesh (S : gset nat) :
  (derive_mesh mesh S = inl IndexOutOfRange
   ↔ ∃ i, i ∈ S ∧ (length (vertices mesh) ≤ i)%nat)
  ∧ (∀ e, derive_mesh mesh S = inl e → e = IndexOutOfRange)
  ∧ ((∀ i, i ∈ S → (i < length (vertices mesh))%nat) ↔
     ∃ mesh', derive_mesh mesh S = inr mesh').
Proof.
  assert ((∀ i, i ∈ S → (i < length (vertices mesh))%nat) →
          ∃ mesh', derive_mesh mesh S = inr mesh') as Hok.
  { intros Hrange. destruct (derive_mesh_in_range mesh S Hrange) as [geom Hgeom].
    eexists. by apply derive_mesh_geom. }
  assert (derive_mesh mesh S = inl IndexOutOfRange
          → ∃ i, i ∈ S ∧ (length (vertices mesh) ≤ i)%nat) as Hfail.
  { intros Hderive.
    destruct (decide (set_Forall (λ i, (i < length (vertices mesh))%nat) S)) as [Hall|Hnot].
    - destruct (Hok Hall) as [mesh' Hmesh']. congruence.
    - destruct (not_set_Forall_Exists _ _ Hnot) as (i & Hi & Hge). exists i.
      simpl in Hge. split; [done|lia]. }
  split; [|split].
  - split; [done|]. intros (i & Hi & Hge). by eapply derive_mesh_out_of_range.
  - intros e. unfold derive_mesh. destruct (mapM _ _); [done|]. by intros [= <-].
  - split; [done|]. intros [mesh' Hmesh'] i Hi.
    destruct (decide (i < length (vertices mesh))%nat) as [|Hge]; [done|].
    rewrite (derive_mesh_out_of_range mesh S i) in Hmesh' by (done || lia). done.
Qed.

Lemma derive_mesh_fails_iff_witness :
  derive_mesh sample_pyramid {[4%nat]} = inl IndexOutOfRange.
Proof.
  apply (proj1 (derive_mesh_fails_iff sample_pyramid {[4%nat]})).
  exists 4%nat. split; [set_solver|simpl; lia].
Defined.

(** X9: a failing derivation on the context object changes nothing in
    the scene: the index is looked up before anything is deleted or
    written back.  In particular line 128 on a mesh with fewer than four
    vertices fails with [IndexOutOfRange] and leaves the mesh as it is. *)
Theorem derive_object_mesh_failure_atomic w (S : gset nat) :
  (∀ e, (derive_object_mesh S w).2 = inl e → (derive_object_mesh S w).1 = w)
  ∧ (∀ ctx oc mesh,
       active_object w = Some ctx → objects w !! ctx = Some oc →
       meshes w !! data oc = Some mesh → (length (vertices mesh) ≤ 3)%nat →
       turn_cone_into_triangle w = (w, inl IndexOutOfRange)).
Proof.
  split.
  - intros e. unfold derive_object_mesh.
    destruct (active_object w); [|done].
    destruct (objects w !! _) as [o|]; [|done].
    destruct (meshes w !! _) as [mesh|]; [|done].
    destruct (derive_mesh mesh S); [done|]. discriminate.
  - intros ctx oc mesh Hctx Hoc Hmesh Hlen.
    unfold turn_cone_into_triangle, derive_object_mesh.
    rewrite Hctx, Hoc, Hmesh.
    rewrite (derive_mesh_out_of_range mesh {[3%nat]} 3%nat) by (set_solver || lia).
    done.
Qed.

Lemma derive_object_mesh_failure_atomic_witness :
  (derive_object_mesh {[7%nat]} sample_world).1 = sample_world.
Proof.
  apply (proj1 (derive_object_mesh_failure_atomic sample_world {[7%nat]})
           IndexOutOfRange).
  unfold derive_object_mesh. simpl. rewrite lookup_singleton_eq. simpl.
  rewrite lookup_singleton_eq.
  rewrite (derive_mesh_out_of_range sample_pyramid {[7%nat]} 7%nat)
    by (set_solver || (simpl; lia)).
  reflexivity.
Defined.

(** X10: a derivation never adds or reorders anything.  The vertices and
    the faces of the result are sublists of those of the mesh, the
    material slots are the same, vertices stay distinct, and every
    remaining face still references only remaining vertices. *)
Theorem derive_mesh_keeps_invariants mesh (S : gset nat) mesh' :
  derive_mesh mesh S = inr mesh' →
  (vertices mesh' `sublist_of` vertices mesh)
  ∧ (polygons mesh' `sublist_of` polygons mesh)
  ∧ mesh_materials mesh' = mesh_materials mesh
  ∧ (distinct_vertices mesh → distinct_vertices mesh')
  ∧ (faces_live mesh → faces_live mesh').
Proof.
  intros Hderive.
  destruct (derive_mesh_invariant mesh S mesh' Hderive) as [Hdistinct Hlive].
  pose proof (derive_mesh_materials mesh S mesh' Hderive) as Hmats.
  unfold derive_mesh in Hderive.
  change (bm_verts (from_mesh bmesh_new mesh)) with (vertices mesh) in Hderive.
  destruct (mapM _ _) as [geom|]; [|done]. injection Hderive as <-. simpl.
  split; [apply sublist_filter; apply _|].
  split; [apply sublist_filter; apply _|]. done.
Qed.

Lemma sample_pyramid_distinct : distinct_vertices sample_pyramid.
Proof.
  unfold distinct_vertices. simpl. apply NoDup_ListNoDup.
  repeat constructor; simpl; intuition lia.
Qed.

Lemma derive_mesh_sample_3 :
  derive_mesh sample_pyramid {[3%nat]}
  = inr {| vertices := filter (λ v, v_index v ∉ [3%nat]) (vertices sample_pyramid);
           polygons := filter (λ f, ¬ incident [3%nat] f) (polygons sample_pyramid);
           mesh_materials := mesh_materials sample_pyramid |}.
Proof.
  apply (derive_mesh_geom sample_pyramid {[3%nat]}
           [ {| v_index := 3; co := (0, 0, 1) |} ]).
  by rewrite elements_singleton.
Qed.

Lemma derive_mesh_keeps_invariants_witness :
  ∃ mesh', derive_mesh sample_pyramid {[3%nat]} = inr mesh'
    ∧ (vertices mesh' `sublist_of` vertices sample_pyramid)
    ∧ (polygons mesh' `sublist_of` polygons sample_pyramid)
    ∧ mesh_materials mesh' = mesh_materials sample_pyramid
    ∧ (distinct_vertices sample_pyramid → distinct_vertices mesh')
    ∧ (faces_live sample_pyramid → faces_live mesh').
Proof.
  eexists. split; [exact derive_mesh_sample_3|].
  exact (derive_mesh_keeps_invariants sample_pyramid {[3%nat]} _ derive_mesh_sample_3).
Defined.

(** X11: which vertices remain.  On a mesh whose vertices are distinct
    objects, the vertices of a successful derivation are exactly the
    vertices found at the positions that are not in [S]. *)
Theorem derive_mesh_remaining_vertices mesh (S : gset nat) mesh' :
  distinct_vertices mesh →
  derive_mesh mesh S = inr mesh' →
  ∀ v, v ∈ vertices mesh' ↔ ∃ j, (j ∉ S) ∧ vertices mesh !! j = Some v.
Proof.
  intros Hdistinct Hderive v. unfold derive_mesh in Hderive.
  change (bm_verts (from_mesh bmesh_new mesh)) with (vertices mesh) in Hderive.
  destruct (mapM _ _) as [geom|] eqn:Hgeom; [|done]. injection Hderive as <-. simpl.
  pose proof (proj1 (mapM_Some _ _ _) Hgeom) as HF.
  assert (NoDup (vertices mesh)) as Hverts by (by eapply NoDup_fmap_1).
  rewrite list_elem_of_filter. split.
  - intros [Hkeep [j Hj]%list_elem_of_lookup]. exists j. split; [|done].
    intros HjS. apply Hkeep, list_elem_of_fmap_2, (picked_elem_of _ _ _ _ HF).
    exists j. by rewrite elem_of_elements.
  - intros (j & HjS & Hj). split; [|by eapply list_elem_of_lookup_2].
    intros (u & Huv & Hu)%list_elem_of_fmap.
    apply (picked_elem_of _ _ _ _ HF) in Hu as (i & Hi & Hiu).
    assert (v = u) as ->.
    { apply (NoDup_fmap_inj_on v_index (vertices mesh)); [done| | |done];
        by eapply list_elem_of_lookup_2. }
    assert (i = j) as -> by exact (NoDup_lookup _ i j u Hverts Hiu Hj).
    apply HjS. by apply elem_of_elements.
Qed.

Lemma derive_mesh_remaining_vertices_witness :
  ∃ mesh', derive_mesh sample_pyramid {[3%nat]} = inr mesh'
    ∧ ∀ v, v ∈ vertices mesh' ↔
           ∃ j, (j ∉ ({[3%nat]} : gset nat)) ∧ vertices sample_pyramid !! j = Some v.
Proof.
  eexists. split; [exact derive_mesh_sample_3|].
  exact (derive_mesh_remaining_vertices sample_pyramid {[3%nat]} _
           sample_pyramid_distinct derive_mesh_sample_3).
Defined.

Lemma sample_mesh_lookup : meshes sample_world !! data sample_object = Some sample_pyramid.
Proof. apply lookup_singleton_eq. Qed.

(** ** Materials: repeated lookups and two names *)

Lemma find_app_r {A : Type} (f : A → bool) (l k : list A) :
  List.find f l = None → List.find f (l ++ k) = List.find f k.
Proof.
  induction l as [|x l IH]; [done|]. simpl. destruct (f x); [done|]. exact IH.
Qed.

Lemma find_snoc_ne {A : Type} (f : A → bool) (l : list A) (x : A) :
  f x = false → List.find f (l ++ [x]) = List.find f l.
Proof.
  intros Hx. induction l as [|y l IH]; simpl; [by rewrite Hx|].
  destruct (f y); [done|]. exact IH.
Qed.

Lemma count_named_snoc_ne name mats m :
  mat_name m ≠ name → count_named name (mats ++ [m]) = count_named name mats.
Proof.
  intros Hne. unfold count_named.
  rewrite filter_app, length_app, filter_cons_False by done. simpl. lia.
Qed.

(** X13: the idiom can be repeated.  The call never fails, and a second
    call with the same name returns the same material and leaves the scene
    as the first call left it: no further material is created. *)
Theorem get_or_create_material_twice w name :
  ∃ w1 m, get_or_create_material name w = (w1, inr m)
    ∧ mat_name m = name
    ∧ get_or_create_material name w1 = (w1, inr m).
Proof.
  unfold get_or_create_material.
  destruct (materials_get name w) as [m|] eqn:Hget.
  - exists w, m. simpl. destruct (materials_get_Some _ _ _ Hget) as [_ Hname].
    split; [done|]. split; [done|]. by rewrite Hget.
  - pose proof (materials_get_None _ _ Hget) as Hnot.
    simpl. unfold materials_new, unique_name. rewrite decide_False by done.
    eexists _, _. split; [reflexivity|]. split; [done|].
    unfold materials_get in *. simpl.
    rewrite (find_app_r _ _ _ Hget). simpl.
    by rewrite bool_decide_eq_true_2.
Qed.

(** X14: a call for one name does not disturb the others.  It leaves the
    objects, the meshes and the active object as they are, keeps every
    material that existed, in order, and for any other name the lookup and
    the number of materials of that name are as before. *)
Theorem get_or_create_material_other_names w name name' :
  name ≠ name' →
  objects (get_or_create_material name w).1 = objects w
  ∧ meshes (get_or_create_material name w).1 = meshes w
  ∧ active_object (get_or_create_material name w).1 = active_object w
  ∧ (materials w `sublist_of` materials (get_or_create_material name w).1)
  ∧ materials_get name' (get_or_create_material name w).1 = materials_get name' w
  ∧ count_named name' (materials (get_or_create_material name w).1)
    = count_named name' (materials w).
Proof.
  intros Hne. unfold get_or_create_material.
  destruct (materials_get name w) as [m|] eqn:Hget; simpl.
  - by repeat split.
  - pose proof (materials_get_None _ _ Hget) as Hnot.
    unfold materials_new, unique_name. rewrite decide_False by done. simpl.
    split; [done|]. split; [done|]. split; [done|].
    split; [by apply sublist_inserts_r|]. split.
    + unfold materials_get. simpl. apply find_snoc_ne. simpl.
      by apply bool_decide_eq_false_2.
    + by apply count_named_snoc_ne.
Qed.

Lemma get_or_create_material_other_names_witness :
  objects (get_or_create_material "X-ray" sample_world).1 = objects sample_world
  ∧ meshes (get_or_create_material "X-ray" sample_world).1 = meshes sample_world
  ∧ active_object (get_or_create_material "X-ray" sample_world).1
    = active_object sample_world
  ∧ (materials sample_world
     `sublist_of` materials (get_or_create_material "X-ray" sample_world).1)
  ∧ materials_get "Material" (get_or_create_material "X-ray" sample_world).1
    = materials_get "Material" sample_world
  ∧ count_named "Material" (materials (get_or_create_material "X-ray" sample_world).1)
    = count_named "Material" (materials sample_world).
Proof.
  apply (get_or_create_material_other_names sample_world "X-ray" "Material").
  discriminate.
Defined.

(** ** Material slots *)

Lemma assign_slot_spec mat slots :
  assign_slot mat slots !! 0%nat = Some mat
  ∧ length (assign_slot mat slots) = max 1 (length slots)
  ∧ (∀ i, (1 ≤ i)%nat → assign_slot mat slots !! i = slots !! i)
  ∧ assign_slot mat (assign_slot mat slots) = assign_slot mat slots.
Proof.
  destruct slots as [|s slots]; simpl.
  - repeat split; try done. intros [|i] Hi; [lia|done].
  - repeat split; try done. intros [|i] Hi; [lia|done].
Qed.

Lemma derive_mesh_set_materials mesh slots (S : gset nat) :
  derive_mesh (set_mesh_materials slots mesh) S
  = match derive_mesh mesh S with
    | inl e => inl e
    | inr mesh' => inr (set_mesh_materials slots mesh')
    end.
Proof.
  unfold derive_mesh.
  change (bm_verts (from_mesh bmesh_new (set_mesh_materials slots mesh)))
    with (vertices mesh).
  change (bm_verts (from_mesh bmesh_new mesh)) with (vertices mesh).
  by destruct (mapM _ _).
Qed.

Section slots.
Variables (w : World) (ctx : string) (cone : Object) (mesh : Mesh).
Hypothesis Hctx : active_object w = Some ctx.
Hypothesis Hcone : objects w !! ctx = Some cone.
Hypothesis Hmesh : meshes w !! data cone = Some mesh.

Lemma assign_material_run mat :
  assign_material mat w
  = (set_meshes
       (<[data cone :=
            set_mesh_materials (assign_slot (mat_name mat) (mesh_materials mesh)) mesh]>
          (meshes w)) w, inr tt).
Proof. unfold assign_material. by rewrite Hctx, Hcone, Hmesh. Qed.

(** X15: the guarded assignment of lines 111 to 114 never fails on an
    active object with a mesh.  Afterwards the first slot holds the
    material, the number of slots is the number before or 1, whichever is
    larger, the slots from the second on are as before, the geometry of
    the mesh and the objects are untouched, and assigning the same
    material once more changes nothing. *)
Theorem assign_material_first_slot mat :
  ∃ w' mesh',
    assign_material mat w = (w', inr tt)
    ∧ objects w' = objects w
    ∧ meshes w' !! data cone = Some mesh'
    ∧ vertices mesh' = vertices mesh
    ∧ polygons mesh' = polygons mesh
    ∧ mesh_materials mesh' !! 0%nat = Some (mat_name mat)
    ∧ length (mesh_materials mesh') = max 1 (length (mesh_materials mesh))
    ∧ (∀ i, (1 ≤ i)%nat → mesh_materials mesh' !! i = mesh_materials mesh !! i)
    ∧ assign_material mat w' = (w', inr tt).
Proof.
  destruct (assign_slot_spec (mat_name mat) (mesh_materials mesh))
    as (Hhead & Hlen & Htail & Hidem).
  eexists _, _. split; [apply assign_material_run|]. simpl.
  split; [done|]. split; [apply lookup_insert_eq|]. simpl.
  repeat (split; [done|]).
  unfold assign_material. simpl. rewrite Hctx, Hcone, lookup_insert_eq. simpl.
  unfold set_mesh_materials at 1. simpl. rewrite Hidem, insert_insert_eq.
  unfold set_meshes. simpl. reflexivity.
Qed.

(** X16: the unguarded assignment of line 173.  On a mesh without
    slots it fails with [IndexOutOfRange] and changes nothing; on a mesh
    with slots it replaces the first slot only.  After the guarded
    assignment of lines 111 to 114 it always succeeds, and the slots are
    then those the guarded assignment of the second material would have
    left. *)
Theorem replace_first_material_bounds mat2 :
  (mesh_materials mesh = [] →
   replace_first_material mat2 w = (w, inl IndexOutOfRange))
  ∧ (mesh_materials mesh ≠ [] →
     ∃ w', replace_first_material mat2 w = (w', inr tt)
       ∧ meshes w' !! data cone
         = Some (set_mesh_materials (<[0%nat := mat_name mat2]> (mesh_materials mesh)) mesh))
  ∧ (∀ mat1, ∃ w1 w2,
       assign_material mat1 w = (w1, inr tt)
       ∧ replace_first_material mat2 w1 = (w2, inr tt)
       ∧ meshes w2 !! data cone
         = Some (set_mesh_materials
                   (assign_slot (mat_name mat2) (mesh_materials mesh)) mesh)).
Proof.
  split; [|split].
  - intros Hempty. unfold replace_first_material.
    by rewrite Hctx, Hcone, Hmesh, Hempty.
  - intros Hslots. unfold replace_first_material. rewrite Hctx, Hcone, Hmesh.
    destruct (mesh_materials mesh) as [|s slots]; [done|]. simpl.
    eexists. split; [reflexivity|]. simpl. apply lookup_insert_eq.
  - intros mat1. rewrite (assign_material_run mat1).
    destruct (mesh_materials mesh) as [|s slots] eqn:Hslots;
      (eexists _, _; split; [reflexivity|];
       unfold replace_first_material; simpl;
       rewrite Hctx, Hcone, lookup_insert_eq; simpl;
       split; [reflexivity|]; simpl; by rewrite lookup_insert_eq).
Qed.

(** X17: assigning the material and deriving the mesh act on separate
    parts of the datablock.  When the derivation succeeds on the mesh,
    assigning first and deriving afterwards, as the script does, succeeds
    and leaves the same meshes as deriving first and assigning
    afterwards: the derived geometry with the assigned slots. *)
Theorem assign_material_derive_commute mat (S : gset nat) mesh' :
  derive_mesh mesh S = inr mesh' →
  ∃ w1 w2,
    (assign_material mat ;; derive_object_mesh S) w = (w1, inr tt)
    ∧ (derive_object_mesh S ;; assign_material mat) w = (w2, inr tt)
    ∧ meshes w1 = meshes w2
    ∧ meshes w1 !! data cone
      = Some (set_mesh_materials
                (assign_slot (mat_name mat) (mesh_materials mesh)) mesh')
    ∧ objects w1 = objects w
    ∧ objects w2 = objects w.
Proof.
  intros Hderive.
  pose proof (derive_mesh_materials _ _ _ Hderive) as Hmats.
  eexists _, _. split; [|split].
  - rewrite (bind_ok _ _ _ _ _ (assign_material_run mat)).
    unfold derive_object_mesh. simpl. rewrite Hctx, Hcone, lookup_insert_eq.
    rewrite derive_mesh_set_materials, Hderive. reflexivity.
  - unfold mbind, Host_bind, derive_object_mesh.
    rewrite Hctx, Hcone, Hmesh, Hderive.
    unfold assign_material. simpl. rewrite Hctx, Hcone, lookup_insert_eq.
    reflexivity.
  - simpl. rewrite !insert_insert_eq, Hmats.
    split; [done|]. split; [apply lookup_insert_eq|]. done.
Qed.
End slots.

Lemma sample_active : active_object sample_world = Some "Cone".
Proof. reflexivity. Qed.

Lemma assign_material_first_slot_witness :
  ∃ w' mesh',
    assign_material {| mat_name := "X-ray"; use_nodes := true |} sample_world
    = (w', inr tt)
    ∧ objects w' = objects sample_world
    ∧ meshes w' !! data sample_object = Some mesh'
    ∧ vertices mesh' = vertices sample_pyramid
    ∧ polygons mesh' = polygons sample_pyramid
    ∧ mesh_materials mesh' !! 0%nat = Some "X-ray"
    ∧ length (mesh_materials mesh') = max 1 (length (mesh_materials sample_pyramid))
    ∧ (∀ i, (1 ≤ i)%nat →
            mesh_materials mesh' !! i = mesh_materials sample_pyramid !! i)
    ∧ assign_material {| mat_name := "X-ray"; use_nodes := true |} w' = (w', inr tt).
Proof.
  exact (assign_material_first_slot sample_world "Cone" sample_object sample_pyramid
           sample_active sample_object_lookup sample_mesh_lookup
           {| mat_name := "X-ray"; use_nodes := true |}).
Defined.

Lemma replace_first_material_bounds_witness :
  ∃ w', replace_first_material {| mat_name := "X-ray"; use_nodes := true |} sample_world
        = (w', inr tt)
    ∧ meshes w' !! data sample_object
      = Some (set_mesh_materials
                (<[0%nat := "X-ray"]> (mesh_materials sample_pyramid)) sample_pyramid).
Proof.
  apply (proj1 (proj2 (replace_first_material_bounds sample_world "Cone" sample_object
                         sample_pyramid sample_active sample_object_lookup
                         sample_mesh_lookup
                         {| mat_name := "X-ray"; use_nodes := true |}))).
  discriminate.
Defined.

Lemma assign_material_derive_commute_witness :
  ∃ mesh' w1 w2,
    derive_mesh sample_pyramid {[3%nat]} = inr mesh'
    ∧ (assign_material {| mat_name := "X-ray"; use_nodes := true |} ;;
       derive_object_mesh {[3%nat]}) sample_world = (w1, inr tt)
    ∧ (derive_object_mesh {[3%nat]} ;;
       assign_material {| mat_name := "X-ray"; use_nodes := true |}) sample_world
      = (w2, inr tt)
    ∧ meshes w1 = meshes w2
    ∧ meshes w1 !! data sample_object
      = Some (set_mesh_materials
                (assign_slot "X-ray" (mesh_materials sample_pyramid)) mesh')
    ∧ objects w1 = objects sample_world
    ∧ objects w2 = objects sample_world.
Proof.
  destruct (assign_material_derive_commute sample_world "Cone" sample_object
              sample_pyramid sample_active sample_object_lookup sample_mesh_lookup
              {| mat_name := "X-ray"; use_nodes := true |} {[3%nat]} _
              derive_mesh_sample_3) as (w1 & w2 & H1 & H2 & H3 & H4 & H5 & H6).
  eexists _, w1, w2. split; [exact derive_mesh_sample_3|]. done.
Defined.

(** ** The origin operator on the flat sample scene *)





